(** * OOP Learning API: quiz grading and lesson search

    A shallow embedding of [main.py]: the pydantic models become records,
    the two in-memory tables become list constants, and the endpoint bodies
    become functions over those lists.  Python [int] is [Z], [str] is
    [string] (the UTF-8 bytes of the text) and [float] is IEEE 754 binary64
    as specified by [SpecFloat]. *)

From Stdlib Require Import ZArith List String Ascii Bool Lia Permutation.
From Stdlib Require Import DecimalString SpecFloat.
Import ListNotations.

Local Open Scope string_scope.
Local Open Scope list_scope.
Local Open Scope Z_scope.

(** ** Models *)

(** [class Difficulty(str, Enum)] *)
Inductive Difficulty : Set := BEGINNER | INTERMEDIATE | ADVANCED.

Definition Difficulty_value (d : Difficulty) : string :=
  match d with
  | BEGINNER => "beginner"
  | INTERMEDIATE => "intermediate"
  | ADVANCED => "advanced"
  end.

Definition Difficulty_eqb (a b : Difficulty) : bool :=
  match a, b with
  | BEGINNER, BEGINNER | INTERMEDIATE, INTERMEDIATE | ADVANCED, ADVANCED => true
  | _, _ => false
  end.

Module Lesson.
Record t : Set := mk
    { id : Z;
      title : string;
      difficulty : Difficulty;
      content : string;
      code_example : string;
      key_concepts : list string }.
End Lesson.

Module QuizQuestion.
Record t : Set := mk
    { id : Z;
      question : string;
      options : list string;
      correct_answer : Z;
      explanation : string }.
End QuizQuestion.

Module Quiz.
Record t : Set := mk
    { id : Z;
      lesson_id : Z;
      title : string;
      questions : list QuizQuestion.t }.
End Quiz.

Module QuizAnswer.
Record t : Set := mk
    { question_id : Z;
      answer : Z }.
End QuizAnswer.

Module QuizSubmission.
Record t : Set := mk
    { answers : list QuizAnswer.t }.
End QuizSubmission.

Module QuizResult.
Record t : Set := mk
    { score : Z;
      total : Z;
      percentage : spec_float;
      passed : bool;
      feedback : list string }.
End QuizResult.

(** [raise HTTPException(status_code=..., detail=...)] *)
Record HTTPException : Set := mkHTTPException
  { status_code : Z;
    detail : string }.

(** ** Data *)

(** The double-quote character, for the literals that contain it. *)
Definition dquote : string := String (ascii_of_nat 34) EmptyString.

Definition lesson_1 : Lesson.t :=
  {| Lesson.id := 1;
     Lesson.title := "Introduction to Classes and Objects";
     Lesson.difficulty := BEGINNER;
     Lesson.content := "
Classes are blueprints for creating objects. An object is an instance of a class.
A class defines attributes (data) and methods (functions) that objects of that class will have.

Key Points:
- A class is a template
- An object is a concrete instance created from a class
- Classes group related data and behavior together
- This helps organize code and make it reusable
        ";
     Lesson.code_example := ("
class Dog:
    def __init__(self, name, age):
        self.name = name
        self.age = age

    def bark(self):
        return f" ++ dquote ++ "{self.name} says: Woof!" ++ dquote ++ "

# Creating objects (instances)
dog1 = Dog(" ++ dquote ++ "Buddy" ++ dquote ++ ", 3)
dog2 = Dog(" ++ dquote ++ "Max" ++ dquote ++ ", 5)

print(dog1.bark())  # Output: Buddy says: Woof!
print(dog2.bark())  # Output: Max says: Woof!
        ");
     Lesson.key_concepts := ["Class";
        "Object";
        "Instance";
        "Attributes";
        "Methods";
        "Constructor"] |}.

Definition lesson_2 : Lesson.t :=
  {| Lesson.id := 2;
     Lesson.title := "Inheritance";
     Lesson.difficulty := INTERMEDIATE;
     Lesson.content := "
Inheritance allows a class to inherit attributes and methods from another class.
The class being inherited from is called the parent (or base) class.
The class that inherits is called the child (or derived) class.

Benefits:
- Code reusability: avoid repeating code
- Logical structure: represent real-world relationships
- Polymorphism: child classes can override parent methods
        ";
     Lesson.code_example := ("
class Animal:
    def __init__(self, name):
        self.name = name

    def make_sound(self):
        return " ++ dquote ++ "Some generic sound" ++ dquote ++ "

class Dog(Animal):
    def make_sound(self):
        return f" ++ dquote ++ "{self.name} says: Woof!" ++ dquote ++ "

class Cat(Animal):
    def make_sound(self):
        return f" ++ dquote ++ "{self.name} says: Meow!" ++ dquote ++ "

# Both inherit from Animal
dog = Dog(" ++ dquote ++ "Buddy" ++ dquote ++ ")
cat = Cat(" ++ dquote ++ "Whiskers" ++ dquote ++ ")

print(dog.make_sound())  # Buddy says: Woof!
print(cat.make_sound())  # Whiskers says: Meow!
        ");
     Lesson.key_concepts := ["Inheritance";
        "Parent Class";
        "Child Class";
        "Override";
        "super()"] |}.

Definition lesson_3 : Lesson.t :=
  {| Lesson.id := 3;
     Lesson.title := "Encapsulation";
     Lesson.difficulty := INTERMEDIATE;
     Lesson.content := "
Encapsulation is the bundling of data (attributes) and methods into a single unit (class).
It also involves hiding internal details from the outside world using access modifiers.

In Python:
- Public: accessible from anywhere (no prefix)
- Protected: intended for internal use (_prefix)
- Private: not accessible outside the class (__prefix)

Benefits:
- Data protection: control how data is accessed and modified
- Data hiding: expose only necessary interfaces
- Maintainability: change internal implementation without affecting external code
        ";
     Lesson.code_example := ("
class BankAccount:
    def __init__(self, balance):
        self.__balance = balance  # Private attribute

    def deposit(self, amount):
        if amount > 0:
            self.__balance += amount
            return f" ++ dquote ++ "Deposited: ${amount}" ++ dquote ++ "
        return " ++ dquote ++ "Invalid amount" ++ dquote ++ "

    def withdraw(self, amount):
        if 0 < amount <= self.__balance:
            self.__balance -= amount
            return f" ++ dquote ++ "Withdrew: ${amount}" ++ dquote ++ "
        return " ++ dquote ++ "Insufficient funds" ++ dquote ++ "

    def get_balance(self):
        return self.__balance

account = BankAccount(1000)
print(account.deposit(500))  # Deposited: $500
print(account.get_balance())  # 1500
# account.__balance = -1000  # Error: Cannot access private attribute
        ");
     Lesson.key_concepts := ["Encapsulation";
        "Access Modifiers";
        "Private";
        "Protected";
        "Public";
        "Getters";
        "Setters"] |}.

Definition lesson_4 : Lesson.t :=
  {| Lesson.id := 4;
     Lesson.title := "Polymorphism";
     Lesson.difficulty := ADVANCED;
     Lesson.content := ("
Polymorphism means " ++ dquote ++ "many forms" ++ dquote ++ ". It allows objects of different types to be treated as objects of a common parent type.
There are two main types: compile-time (method overloading) and runtime (method overriding).

Benefits:
- Write flexible and reusable code
- Use a single interface for different data types
- Makes code extensible and maintainable
        ");
     Lesson.code_example := ("
class Shape:
    def area(self):
        pass

class Circle(Shape):
    def __init__(self, radius):
        self.radius = radius

    def area(self):
        return 3.14 * self.radius ** 2

class Rectangle(Shape):
    def __init__(self, width, height):
        self.width = width
        self.height = height

    def area(self):
        return self.width * self.height

# Polymorphism in action
shapes = [Circle(5), Rectangle(4, 6)]

for shape in shapes:
    print(f" ++ dquote ++ "Area: {shape.area()}" ++ dquote ++ ")  # Calls appropriate method
        ");
     Lesson.key_concepts := ["Polymorphism";
        "Method Overriding";
        "Interface";
        "Dynamic Dispatch"] |}.

Definition lesson_5 : Lesson.t :=
  {| Lesson.id := 5;
     Lesson.title := "Abstraction";
     Lesson.difficulty := ADVANCED;
     Lesson.content := "
Abstraction is the concept of hiding complex implementation details and showing only the necessary features.
It focuses on what an object does rather than how it does it.

In Python, we use abstract classes and abstract methods to enforce abstraction.

Benefits:
- Reduce complexity by hiding implementation details
- Define a clear interface for subclasses
- Enforce consistency across implementations
        ";
     Lesson.code_example := ("
from abc import ABC, abstractmethod

class Vehicle(ABC):
    @abstractmethod
    def start(self):
        pass

    @abstractmethod
    def stop(self):
        pass

class Car(Vehicle):
    def start(self):
        return " ++ dquote ++ "Car engine started" ++ dquote ++ "

    def stop(self):
        return " ++ dquote ++ "Car engine stopped" ++ dquote ++ "

class Bike(Vehicle):
    def start(self):
        return " ++ dquote ++ "Bike engine started" ++ dquote ++ "

    def stop(self):
        return " ++ dquote ++ "Bike engine stopped" ++ dquote ++ "

# Cannot instantiate abstract class
# vehicle = Vehicle()  # Error

car = Car()
print(car.start())  # Car engine started
        ");
     Lesson.key_concepts := ["Abstraction";
        "Abstract Class";
        "Abstract Method";
        "ABC";
        "Interface"] |}.

Definition lessons_db : list Lesson.t :=
  [lesson_1; lesson_2; lesson_3; lesson_4; lesson_5].

Definition quiz_1 : Quiz.t :=
  {| Quiz.id := 1;
     Quiz.lesson_id := 1;
     Quiz.title := "Classes and Objects Quiz";
     Quiz.questions :=
       [{| QuizQuestion.id := 1;
          QuizQuestion.question := "What is a class in OOP?";
          QuizQuestion.options :=
            ["An instance of an object";
             "A blueprint for creating objects";
             "A method of a program";
             "A type of variable"];
          QuizQuestion.correct_answer := 1;
          QuizQuestion.explanation := "A class is a blueprint or template that defines the structure and behavior for objects." |};
        {| QuizQuestion.id := 2;
          QuizQuestion.question := "What is an object?";
          QuizQuestion.options :=
            ["A collection of variables";
             "An instance of a class";
             "A function definition";
             "A data type"];
          QuizQuestion.correct_answer := 1;
          QuizQuestion.explanation := "An object is a concrete instance created from a class. It has actual values for the attributes defined in the class." |};
        {| QuizQuestion.id := 3;
          QuizQuestion.question := "What does __init__ do in a class?";
          QuizQuestion.options :=
            ["Initializes the program";
             "Deletes an object";
             "Constructs and initializes a new object";
             "Returns a value"];
          QuizQuestion.correct_answer := 2;
          QuizQuestion.explanation := "__init__ is the constructor method that initializes a new object when it's created." |}] |}.

Definition quiz_2 : Quiz.t :=
  {| Quiz.id := 2;
     Quiz.lesson_id := 2;
     Quiz.title := "Inheritance Quiz";
     Quiz.questions :=
       [{| QuizQuestion.id := 1;
          QuizQuestion.question := "What is inheritance?";
          QuizQuestion.options :=
            ["Passing money to children";
             "A child class inheriting attributes and methods from a parent class";
             "Creating multiple objects";
             "Copying code from one file to another"];
          QuizQuestion.correct_answer := 1;
          QuizQuestion.explanation := "Inheritance allows a class (child) to inherit attributes and methods from another class (parent)." |};
        {| QuizQuestion.id := 2;
          QuizQuestion.question := "What is the main benefit of inheritance?";
          QuizQuestion.options :=
            ["It makes code longer";
             "It helps organize imports";
             "Code reusability and logical structure";
             "It slows down execution"];
          QuizQuestion.correct_answer := 2;
          QuizQuestion.explanation := "Inheritance promotes code reusability and creates a logical hierarchical structure." |}] |}.

Definition quizzes_db : list Quiz.t :=
  [quiz_1; quiz_2].

(** ** Python numbers

    [float] is binary64: 53 bits of precision, exponents below 1024. *)

Definition prec : Z := 53.
Definition emax : Z := 1024.

(** [float(n)] for an integer that binary64 holds exactly (|n| <= 2^53),
    which is how the literals 100 and 70 enter float arithmetic. *)
Definition float_of_int (n : Z) : spec_float :=
  binary_normalize prec emax n 0 false.

(** An integer as an unrounded significand with exponent 0. *)
Definition int_significand (n : Z) : spec_float :=
  match n with
  | Z0 => S754_zero false
  | Zpos p => S754_finite false p 0
  | Zneg p => S754_finite true p 0
  end.

(** [a / b] on two ints: CPython returns the binary64 nearest the exact
    quotient (ties to even) whatever the size of the operands, which is
    what [SFdiv] computes from the two unrounded significands.  The caller
    guards [b > 0].  CPython raises OverflowError where the quotient exceeds
    the binary64 range; the only dividend in this program is a count of list
    elements, below 2^63, so that path cannot be taken. *)
Definition int_truediv (a b : Z) : spec_float :=
  SFdiv prec emax (int_significand a) (int_significand b).

(** [x * n] with a float [x] and an int [n]: [n] is converted first. *)
Definition float_mul_int (x : spec_float) (n : Z) : spec_float :=
  SFmul prec emax x (float_of_int n).

(** [x >= n] with a float [x] and an int [n] that binary64 holds exactly. *)
Definition float_ge_int (x : spec_float) (n : Z) : bool :=
  SFleb (float_of_int n) x.

Definition float_le_int (x : spec_float) (n : Z) : bool :=
  SFleb x (float_of_int n).

(** The integer nearest [a / b] for [b > 0], ties to the even one. *)
Definition div_half_even (a b : Z) : Z :=
  let q := a / b in
  let r := a mod b in
  match 2 * r ?= b with
  | Lt => q
  | Gt => q + 1
  | Eq => if Z.even q then q else q + 1
  end.

(** The integer nearest [m * 2^e * 10^ndigits], ties to even. *)
Definition scaled_half_even (m : positive) (e : Z) (ndigits : Z) : Z :=
  if 0 <=? e
  then Zpos m * 2 ^ e * 10 ^ ndigits
  else div_half_even (Zpos m * 10 ^ ndigits) (2 ^ (- e)).

(** [round(x, ndigits)] on a float, for [ndigits >= 0] in the range CPython
    handles by decimal conversion: the value is rounded correctly (ties to
    even) to [ndigits] decimals, and the decimal is converted back to the
    nearest binary64.  Zeros, infinities and NaN round to themselves. *)
Definition float_round (x : spec_float) (ndigits : Z) : spec_float :=
  match x with
  | S754_finite s m e =>
      match scaled_half_even m e ndigits with
      | Zpos n =>
          SFdiv prec emax (S754_finite s n 0) (int_significand (10 ^ ndigits))
      | _ => S754_zero s
      end
  | _ => x
  end.

(** A value that is an [int] on one branch and a [float] on the other, as
    [percentage] is in [submit_quiz]. *)
Inductive number : Set :=
| Int (n : Z)
| Float (x : spec_float).

(** [v >= n] *)
Definition number_ge_int (v : number) (n : Z) : bool :=
  match v with
  | Int k => n <=? k
  | Float x => float_ge_int x n
  end.

(** [round(v, ndigits)]: an [int] rounds to itself when [ndigits >= 0]. *)
Definition round (v : number) (ndigits : Z) : number :=
  match v with
  | Int k => Int k
  | Float x => Float (float_round x ndigits)
  end.

(** pydantic's coercion of a value stored in a [float] field. *)
Definition to_float (v : number) : spec_float :=
  match v with
  | Int k => float_of_int k
  | Float x => x
  end.

(** [str(n)] for an int, as an f-string renders it. *)
Definition str_of_int (n : Z) : string :=
  NilZero.string_of_int (Z.to_int n).

(** ** Quiz endpoints *)

(** [next((q for q in quizzes_db if q.id == quiz_id), None)] *)
Definition find_quiz (quizzes_db : list Quiz.t) (quiz_id : Z) : option Quiz.t :=
  find (fun q => Quiz.id q =? quiz_id) quizzes_db.

(** [next((q for q in quiz.questions if q.id == answer.question_id), None)] *)
Definition find_question (quiz : Quiz.t) (question_id : Z)
  : option QuizQuestion.t :=
  find (fun q => QuizQuestion.id q =? question_id) (Quiz.questions quiz).

(** [get_quiz] *)
Definition get_quiz (quizzes_db : list Quiz.t) (quiz_id : Z)
  : HTTPException + Quiz.t :=
  match find_quiz quizzes_db quiz_id with
  | None => inl (mkHTTPException 404 "Quiz not found")
  | Some quiz => inr quiz
  end.

(** [get_quizzes_for_lesson] *)
Definition get_quizzes_for_lesson (quizzes_db : list Quiz.t) (lesson_id : Z)
  : list Quiz.t :=
  filter (fun q => Quiz.lesson_id q =? lesson_id) quizzes_db.

Definition feedback_correct (answer : QuizAnswer.t) (question : QuizQuestion.t)
  : string :=
  "Q" ++ str_of_int (QuizAnswer.question_id answer) ++ ": ✓ Correct! "
      ++ QuizQuestion.explanation question.

Definition feedback_incorrect (answer : QuizAnswer.t) (question : QuizQuestion.t)
  : string :=
  "Q" ++ str_of_int (QuizAnswer.question_id answer) ++ ": ✗ Incorrect. "
      ++ QuizQuestion.explanation question.

(** One iteration of the [for answer in submission.answers] loop, on the
    pair of the two variables it updates. *)
Definition grade_answer (quiz : Quiz.t) (st : Z * list string)
  (answer : QuizAnswer.t) : Z * list string :=
  let '(score, feedback) := st in
  match find_question quiz (QuizAnswer.question_id answer) with
  | None => (score, feedback)
  | Some question =>
      if QuizAnswer.answer answer =? QuizQuestion.correct_answer question
      then (score + 1, feedback ++ [feedback_correct answer question])
      else (score, feedback ++ [feedback_incorrect answer question])
  end.

(** The whole loop, from [score = 0] and [feedback = []]. *)
Definition grade_loop (quiz : Quiz.t) (answers : list QuizAnswer.t)
  : Z * list string :=
  fold_left (grade_answer quiz) answers (0, []).

(** [percentage = (score / total * 100) if total > 0 else 0] *)
Definition raw_percentage (score total : Z) : number :=
  if 0 <? total
  then Float (float_mul_int (int_truediv score total) 100)
  else Int 0.

(** The part of [submit_quiz] after the quiz has been found. *)
Definition grade (quiz : Quiz.t) (submission : QuizSubmission.t)
  : QuizResult.t :=
  let '(score, feedback) := grade_loop quiz (QuizSubmission.answers submission) in
  let total := Z.of_nat (List.length (Quiz.questions quiz)) in
  let percentage := raw_percentage score total in
  let passed := number_ge_int percentage 70 in
  {| QuizResult.score := score;
     QuizResult.total := total;
     QuizResult.percentage := to_float (round percentage 2);
     QuizResult.passed := passed;
     QuizResult.feedback := feedback |}.

(** [submit_quiz] *)
Definition submit_quiz (quizzes_db : list Quiz.t) (quiz_id : Z)
  (submission : QuizSubmission.t) : HTTPException + QuizResult.t :=
  match find_quiz quizzes_db quiz_id with
  | None => inl (mkHTTPException 404 "Quiz not found")
  | Some quiz => inr (grade quiz submission)
  end.

(** ** Lesson endpoints *)

(** [get_lesson] *)
Definition get_lesson (lessons_db : list Lesson.t) (lesson_id : Z)
  : HTTPException + Lesson.t :=
  match find (fun l => Lesson.id l =? lesson_id) lessons_db with
  | None => inl (mkHTTPException 404 "Lesson not found")
  | Some lesson => inr lesson
  end.

(** [get_lessons_by_difficulty] *)
Definition get_lessons_by_difficulty (lessons_db : list Lesson.t)
  (difficulty : Difficulty) : list Lesson.t :=
  filter (fun l => Difficulty_eqb (Lesson.difficulty l) difficulty) lessons_db.

(** [needle in hay] on two strings: [needle] occurs in [hay] as a
    contiguous run, tried at every start position; the empty string occurs
    in every string. *)
Fixpoint str_in (needle hay : string) : bool :=
  if prefix needle hay then true
  else match hay with
       | EmptyString => false
       | String _ rest => str_in needle rest
       end.

(** One dictionary of the list [search_lessons] returns. *)
Module SearchResult.
Record t : Set := mk
  { id : Z;
    title : string;
    difficulty : Difficulty;
    matching_concepts : list string }.
End SearchResult.

Section SearchLessons.

(** [str.lower], the Unicode lower-casing of the Python runtime. *)
Variable lower : string -> string.

(** [keyword_lower in l.title.lower() or keyword_lower in l.content.lower()] *)
Definition lesson_matches (keyword_lower : string) (l : Lesson.t) : bool :=
  str_in keyword_lower (lower (Lesson.title l))
  || str_in keyword_lower (lower (Lesson.content l)).

(** [[c for c in l.key_concepts if keyword_lower in c.lower()]] *)
Fixpoint concepts_matching (keyword_lower : string) (concepts : list string)
  : list string :=
  match concepts with
  | [] => []
  | c :: rest =>
      if str_in keyword_lower (lower c)
      then c :: concepts_matching keyword_lower rest
      else concepts_matching keyword_lower rest
  end.

Definition search_entry (keyword_lower : string) (l : Lesson.t)
  : SearchResult.t :=
  {| SearchResult.id := Lesson.id l;
     SearchResult.title := Lesson.title l;
     SearchResult.difficulty := Lesson.difficulty l;
     SearchResult.matching_concepts :=
       concepts_matching keyword_lower (Lesson.key_concepts l) |}.

(** The comprehension over [lessons_db]. *)
Fixpoint search_scan (keyword_lower : string) (lessons : list Lesson.t)
  : list SearchResult.t :=
  match lessons with
  | [] => []
  | l :: rest =>
      if lesson_matches keyword_lower l
      then search_entry keyword_lower l :: search_scan keyword_lower rest
      else search_scan keyword_lower rest
  end.

(** [search_lessons] *)
Definition search_lessons (lessons_db : list Lesson.t) (keyword : string)
  : list SearchResult.t :=
  let keyword_lower := lower keyword in
  search_scan keyword_lower lessons_db.

End SearchLessons.

(** [str.lower] restricted to ASCII text, on which it only moves the
    letters A-Z; every string of [lessons_db] is ASCII. *)
Definition ascii_lower_char (c : ascii) : ascii :=
  let n := nat_of_ascii c in
  if (65 <=? n)%nat && (n <=? 90)%nat then ascii_of_nat (n + 32) else c.

Fixpoint ascii_lower (s : string) : string :=
  match s with
  | EmptyString => EmptyString
  | String c rest => String (ascii_lower_char c) (ascii_lower rest)
  end.


(** ** Progress tracking *)

(** The dictionaries [get_progress_summary] returns. *)
Module LessonsByDifficulty.
Record t : Set := mk
  { beginner : Z;
    intermediate : Z;
    advanced : Z }.
End LessonsByDifficulty.

Module ProgressSummary.
Record t : Set := mk
  { total_lessons : Z;
    lessons_by_difficulty : LessonsByDifficulty.t;
    total_quizzes : Z;
    total_quiz_questions : Z }.
End ProgressSummary.

(** [len([l for l in lessons_db if l.difficulty == d])] *)
Definition count_difficulty (lessons_db : list Lesson.t) (d : Difficulty) : Z :=
  Z.of_nat
    (List.length
       (filter (fun l => Difficulty_eqb (Lesson.difficulty l) d) lessons_db)).

(** [sum(len(q.questions) for q in quizzes_db)]: the generator's values are
    added to 0 from left to right. *)
Definition sum_question_counts (quizzes_db : list Quiz.t) : Z :=
  fold_left (fun acc q => acc + Z.of_nat (List.length (Quiz.questions q)))
            quizzes_db 0.

(** [get_progress_summary] *)
Definition get_progress_summary (lessons_db : list Lesson.t)
  (quizzes_db : list Quiz.t) : ProgressSummary.t :=
  {| ProgressSummary.total_lessons := Z.of_nat (List.length lessons_db);
     ProgressSummary.lessons_by_difficulty :=
       {| LessonsByDifficulty.beginner := count_difficulty lessons_db BEGINNER;
          LessonsByDifficulty.intermediate :=
            count_difficulty lessons_db INTERMEDIATE;
          LessonsByDifficulty.advanced := count_difficulty lessons_db ADVANCED |};
     ProgressSummary.total_quizzes := Z.of_nat (List.length quizzes_db);
     ProgressSummary.total_quiz_questions := sum_question_counts quizzes_db |}.
(** ** Auxiliary definitions for the statements *)

(** The answers that reach a question of the quiz, and among them the
    right ones. *)
Definition matched (quiz : Quiz.t) (a : QuizAnswer.t) : bool :=
  match find_question quiz (QuizAnswer.question_id a) with
  | Some _ => true
  | None => false
  end.

Definition answered_right (quiz : Quiz.t) (a : QuizAnswer.t) : bool :=
  match find_question quiz (QuizAnswer.question_id a) with
  | Some q => QuizAnswer.answer a =? QuizQuestion.correct_answer q
  | None => false
  end.

(** The pieces of the binary64 rounding argument. *)

(** Whether a shift record has lost a one. *)
Definition shr_inexact (mrs : shr_record) : bool := shr_r mrs || shr_s mrs.

(** [b] is [a] with its [k] low bits dropped and remembered. *)
Definition shifted (k : Z) (a b : shr_record) : Prop :=
  shr_m b = shr_m a / 2 ^ k
  /\ (shr_inexact b = false <->
      shr_inexact a = false /\ shr_m a mod 2 ^ k = 0).

(** The result built from the final significand and exponent. *)
Definition float_of_parts (s : bool) (m e : Z) : spec_float :=
  match m with
  | Z0 => S754_zero s
  | Zpos p => if e <=? emax - prec then S754_finite s p e else S754_infinity s
  | Zneg _ => S754_nan
  end.

(** The exponent at which [a / b] is first truncated. *)
Definition div_exponent (a b : positive) : Z :=
  Z.min (Z.max (Zdigits2 (Zpos a) - Zdigits2 (Zpos b) - 53) (-1074)) 0.

(** The quotient of two positive ints, as [int_truediv] computes it. *)
Definition div_pos (a b : positive) : spec_float :=
  SFdiv prec emax (S754_finite false a 0) (S754_finite false b 0).

(** Neither NaN nor below zero. *)
Definition is_nonneg (x : spec_float) : bool :=
  match x with
  | S754_nan => false
  | S754_zero _ => true
  | S754_infinity s | S754_finite s _ _ => negb s
  end.

(** The two values [submit_quiz] derives from [score] and [total]. *)
Definition percentage_of (score total : Z) : spec_float :=
  to_float (round (raw_percentage score total) 2).

Definition passed_of (score total : Z) : bool :=
  number_ge_int (raw_percentage score total) 70.

(** The answer that picks the correct option of a question. *)
Definition right_answer (q : QuizQuestion.t) : QuizAnswer.t :=
  {| QuizAnswer.question_id := QuizQuestion.id q;
     QuizAnswer.answer := QuizQuestion.correct_answer q |}.

(** [needle] occurs in [hay] as a contiguous run. *)
Definition occurs_in (needle hay : string) : Prop :=
  exists before after, hay = (before ++ needle ++ after)%string.

(** Stores and submissions for the boundary cases. *)

Definition bare_question (i : nat) : QuizQuestion.t :=
  {| QuizQuestion.id := Z.of_nat i;
     QuizQuestion.question := "";
     QuizQuestion.options := ["no"; "yes"];
     QuizQuestion.correct_answer := 1;
     QuizQuestion.explanation := "" |}.

(** A quiz with the questions 1..n, each answered by option 1. *)
Definition bare_quiz (n : nat) : Quiz.t :=
  {| Quiz.id := 1;
     Quiz.lesson_id := 1;
     Quiz.title := "";
     Quiz.questions := map bare_question (seq 1 n) |}.

(** The first [k] questions of a [bare_quiz] answered right. *)
Definition bare_submission (k : nat) : QuizSubmission.t :=
  {| QuizSubmission.answers :=
       map (fun i => right_answer (bare_question i)) (seq 1 k) |}.

(** Four times the right answer to question 1 of the first quiz. *)
Definition repeated_submission : QuizSubmission.t :=
  {| QuizSubmission.answers :=
       repeat {| QuizAnswer.question_id := 1; QuizAnswer.answer := 1 |} 4 |}.

(** The binary64 nearest seven tenths (it lies just below), the one before
    it, and the one before 70. *)
Definition seven_tenths : spec_float :=
  S754_finite false 6305039478318694 (-53).

Definition below_seven_tenths : spec_float :=
  S754_finite false 6305039478318693 (-53).

Definition below_70 : spec_float :=
  S754_finite false 4925812092436479 (-46).

(** The same quiz with other questions. *)
Definition with_questions (quiz : Quiz.t) (questions : list QuizQuestion.t)
  : Quiz.t :=
  {| Quiz.id := Quiz.id quiz;
     Quiz.lesson_id := Quiz.lesson_id quiz;
     Quiz.title := Quiz.title quiz;
     Quiz.questions := questions |}.
(** ** Binary64 rounding: what [binary_round_aux] computes *)

Lemma fexp_eq e : fexp prec emax e = Z.max (e - 53) (-1074).
Proof. reflexivity. Qed.

Lemma digits2_pos_bounds (p : positive) :
  2 ^ (Zpos (digits2_pos p) - 1) <= Zpos p < 2 ^ Zpos (digits2_pos p).
Proof.
  induction p as [p IH|p IH|]; cbn [digits2_pos].
  - rewrite Pos2Z.inj_succ.
    replace (Z.succ (Zpos (digits2_pos p)) - 1) with (Z.succ (Zpos (digits2_pos p) - 1)) by lia.
    rewrite !Z.pow_succ_r by lia. lia.
  - rewrite Pos2Z.inj_succ.
    replace (Z.succ (Zpos (digits2_pos p)) - 1) with (Z.succ (Zpos (digits2_pos p) - 1)) by lia.
    rewrite !Z.pow_succ_r by lia. lia.
  - cbn. lia.
Qed.

Lemma Zdigits2_nonneg m : 0 <= Zdigits2 m.
Proof. destruct m; cbn; lia. Qed.

Lemma Zdigits2_bounds m :
  0 < m -> 2 ^ (Zdigits2 m - 1) <= m < 2 ^ Zdigits2 m.
Proof.
  destruct m as [|p|p]; try lia. intros _. apply digits2_pos_bounds.
Qed.

(** [Zdigits2 m <= k] exactly when [m < 2^k]. *)
Lemma Zdigits2_le_iff m k :
  0 <= m -> 0 <= k -> (Zdigits2 m <= k <-> m < 2 ^ k).
Proof.
  intros Hm Hk.
  destruct (Z.eq_dec m 0) as [->|Hne].
  - cbn. split; intros _; [apply Z.pow_pos_nonneg|]; lia.
  - assert (H := Zdigits2_bounds m ltac:(lia)).
    pose proof (Zdigits2_nonneg m) as Hd.
    split; intros Hle.
    + apply Z.lt_le_trans with (2 ^ Zdigits2 m); [lia|].
      apply Z.pow_le_mono_r; lia.
    + destruct (Z.le_gt_cases (Zdigits2 m) k) as [|Hgt]; [assumption|].
      assert (2 ^ k <= 2 ^ (Zdigits2 m - 1)) by (apply Z.pow_le_mono_r; lia).
      lia.
Qed.

Lemma Zdigits2_mono a b : 0 <= a <= b -> Zdigits2 a <= Zdigits2 b.
Proof.
  intros [Ha Hab].
  apply Zdigits2_le_iff; [lia | apply Zdigits2_nonneg |].
  destruct (Z.eq_dec b 0) as [->|Hb].
  - assert (a = 0) by lia. subst. cbn. lia.
  - pose proof (Zdigits2_bounds b ltac:(lia)). lia.
Qed.

(** One more bit for every doubling. *)
Lemma Zdigits2_shift m k :
  0 < m -> 0 <= k -> Zdigits2 (m * 2 ^ k) = Zdigits2 m + k.
Proof.
  intros Hm Hk.
  pose proof (Zdigits2_bounds m Hm) as [Hlo Hhi].
  pose proof (Zdigits2_nonneg m) as Hd.
  assert (Hp : 0 < 2 ^ k) by (apply Z.pow_pos_nonneg; lia).
  assert (Hmk : 0 < m * 2 ^ k) by lia.
  assert (Hd1 : 1 <= Zdigits2 m).
  { destruct (Z.le_gt_cases 1 (Zdigits2 m)); [assumption|].
    assert (Zdigits2 m = 0) by lia.
    rewrite H0 in Hhi. cbn in Hhi. lia. }
  apply Z.le_antisymm.
  - apply Zdigits2_le_iff; [lia|lia|].
    rewrite Z.pow_add_r by lia. nia.
  - destruct (Z.le_gt_cases (Zdigits2 m + k) (Zdigits2 (m * 2 ^ k))) as [|Hgt];
      [assumption|].
    assert (Hle : Zdigits2 (m * 2 ^ k) <= Zdigits2 m + k - 1) by lia.
    apply Zdigits2_le_iff in Hle; [|lia|lia].
    replace (Zdigits2 m + k - 1) with ((Zdigits2 m - 1) + k) in Hle by lia.
    rewrite Z.pow_add_r in Hle by lia. nia.
Qed.

(** Dropping the [k] low bits. *)
Lemma Zdigits2_div m k :
  0 <= m -> 0 <= k -> Zdigits2 (m / 2 ^ k) = Z.max 0 (Zdigits2 m - k).
Proof.
  intros Hm Hk.
  assert (Hp : 0 < 2 ^ k) by (apply Z.pow_pos_nonneg; lia).
  pose proof (Zdigits2_nonneg m) as Hd.
  destruct (Z.le_gt_cases (Zdigits2 m) k) as [Hsmall|Hbig].
  - assert (m < 2 ^ k) by (apply Zdigits2_le_iff; lia).
    rewrite Z.div_small by lia. cbn. lia.
  - assert (Hm0 : 0 < m) by (destruct m; cbn in *; lia).
    pose proof (Zdigits2_bounds m Hm0) as [Hlo Hhi].
    assert (Hq : 2 ^ (Zdigits2 m - 1 - k) <= m / 2 ^ k).
    { apply Z.div_le_lower_bound; [lia|].
      rewrite <- Z.pow_add_r by lia.
      replace (k + (Zdigits2 m - 1 - k)) with (Zdigits2 m - 1) by lia. lia. }
    assert (Hq' : m / 2 ^ k < 2 ^ (Zdigits2 m - k)).
    { apply Z.div_lt_upper_bound; [lia|].
      rewrite <- Z.pow_add_r by lia.
      replace (k + (Zdigits2 m - k)) with (Zdigits2 m) by lia. lia. }
    assert (0 < 2 ^ (Zdigits2 m - 1 - k)) by (apply Z.pow_pos_nonneg; lia).
    rewrite Z.max_r by lia.
    apply Z.le_antisymm.
    + apply Zdigits2_le_iff; lia.
    + destruct (Z.le_gt_cases (Zdigits2 m - k) (Zdigits2 (m / 2 ^ k))) as [|Hgt];
        [assumption|].
      assert (Hle : Zdigits2 (m / 2 ^ k) <= Zdigits2 m - 1 - k) by lia.
      apply Zdigits2_le_iff in Hle; lia.
Qed.

(** *** Right shifts with a sticky bit *)

Lemma shifted_1 a : 0 <= shr_m a -> shifted 1 a (shr_1 a).
Proof.
  destruct a as [m r s]. cbn [shr_m]. intros Hm.
  unfold shifted, shr_inexact.
  change (2 ^ 1) with 2.
  destruct m as [|[p|p|]|p]; try lia; cbn [shr_1 shr_m shr_r shr_s].
  - split; [now rewrite Z.div_0_l|]. rewrite Zmod_0_l. cbn. intuition.
  - split.
    + rewrite Pos2Z.inj_xI.
      apply Z.div_unique with 1; lia.
    + rewrite Pos2Z.inj_xI.
      replace ((2 * Zpos p + 1) mod 2) with 1
        by (apply Z.mod_unique with (Zpos p); lia).
      cbn. intuition; discriminate.
  - split.
    + rewrite Pos2Z.inj_xO.
      apply Z.div_unique with 0; lia.
    + rewrite Pos2Z.inj_xO.
      replace ((2 * Zpos p) mod 2) with 0
        by (apply Z.mod_unique with (Zpos p); lia).
      cbn. intuition.
  - split; [reflexivity|]. cbn. intuition; discriminate.
Qed.

Lemma shifted_trans j k a b c :
  0 <= j -> 0 <= k -> 0 <= shr_m a ->
  shifted j a b -> shifted k b c -> shifted (j + k) a c.
Proof.
  intros Hj Hk Ha [Hab Eab] [Hbc Ebc].
  assert (Hpj : 0 < 2 ^ j) by (apply Z.pow_pos_nonneg; lia).
  assert (Hpk : 0 < 2 ^ k) by (apply Z.pow_pos_nonneg; lia).
  split.
  - rewrite Hbc, Hab, Z.pow_add_r, Z.div_div by lia. reflexivity.
  - rewrite Ebc, Eab, Hab, Z.pow_add_r by lia.
    rewrite Z.rem_mul_r by lia.
    pose proof (Z.mod_pos_bound (shr_m a) (2 ^ j) Hpj).
    pose proof (Z.mod_pos_bound (shr_m a / 2 ^ j) (2 ^ k) Hpk).
    split.
    + intros [[Hi Hmj] Hmk]. split; [assumption|].
      rewrite Hmj, Hmk. lia.
    + intros [Hi Hsum].
      set (x := shr_m a mod 2 ^ j) in *.
      set (y := (shr_m a / 2 ^ j) mod 2 ^ k) in *.
      assert (0 <= 2 ^ j * y) by (apply Z.mul_nonneg_nonneg; lia).
      assert (Hx : x = 0) by lia.
      assert (Hy : 2 ^ j * y = 0) by lia.
      apply Z.mul_eq_0 in Hy. destruct Hy; [lia|]. auto.
Qed.

Lemma shifted_nonneg k a b : 0 <= k -> 0 <= shr_m a -> shifted k a b -> 0 <= shr_m b.
Proof.
  intros Hk Ha [-> _]. apply Z.div_pos; [assumption|].
  apply Z.pow_pos_nonneg; lia.
Qed.

Lemma iter_pos_shr_1 (p : positive) :
  forall a, 0 <= shr_m a -> shifted (Zpos p) a (iter_pos shr_1 p a).
Proof.
  induction p as [p IH|p IH|]; intros a Ha; cbn [iter_pos].
  - rewrite Pos2Z.inj_xI.
    replace (2 * Zpos p + 1) with (1 + Zpos p + Zpos p) by lia.
    pose proof (shifted_1 a Ha) as H1.
    pose proof (shifted_nonneg 1 _ _ ltac:(lia) Ha H1) as Hb.
    pose proof (IH _ Hb) as H2.
    pose proof (shifted_nonneg (Zpos p) _ _ ltac:(lia) Hb H2) as Hc.
    pose proof (IH _ Hc) as H3.
    eapply shifted_trans; [lia|lia|assumption| |exact H3].
    eapply shifted_trans; [lia|lia|assumption|exact H1|exact H2].
  - rewrite Pos2Z.inj_xO.
    replace (2 * Zpos p) with (Zpos p + Zpos p) by lia.
    pose proof (IH _ Ha) as H2.
    pose proof (shifted_nonneg (Zpos p) _ _ ltac:(lia) Ha H2) as Hc.
    pose proof (IH _ Hc) as H3.
    eapply shifted_trans; [lia|lia|assumption|exact H2|exact H3].
  - apply shifted_1; assumption.
Qed.

Lemma loc_of_shr_record_exact mrs :
  loc_of_shr_record mrs = loc_Exact <-> shr_inexact mrs = false.
Proof.
  destruct mrs as [m [|] [|]]; cbn; intuition; discriminate.
Qed.

Lemma shr_record_of_loc_m m l : shr_m (shr_record_of_loc m l) = m.
Proof. destruct l as [|[| |]]; reflexivity. Qed.

Lemma shr_record_of_loc_exact m l :
  shr_inexact (shr_record_of_loc m l) = false <-> l = loc_Exact.
Proof.
  destruct l as [|[| |]]; cbn; intuition; discriminate.
Qed.

(** [shr_fexp] brings the exponent up to [fexp] of the magnitude, never
    down; the significand loses the bits in between. *)
Lemma shr_fexp_spec m e l :
  0 <= m ->
  let e' := Z.max e (fexp prec emax (Zdigits2 m + e)) in
  snd (shr_fexp prec emax m e l) = e'
  /\ shr_m (fst (shr_fexp prec emax m e l)) = m / 2 ^ (e' - e)
  /\ (loc_of_shr_record (fst (shr_fexp prec emax m e l)) = loc_Exact <->
      l = loc_Exact /\ m mod 2 ^ (e' - e) = 0).
Proof.
  intros Hm e'. subst e'. unfold shr_fexp, shr.
  set (f := fexp prec emax (Zdigits2 m + e)).
  destruct (f - e) as [|p|p] eqn:Hn; cbn [fst snd].
  - replace (Z.max e f) with e by lia. rewrite Z.sub_diag.
    change (2 ^ 0) with 1. rewrite Z.div_1_r, Z.mod_1_r.
    rewrite shr_record_of_loc_m, loc_of_shr_record_exact, shr_record_of_loc_exact.
    intuition.
  - replace (Z.max e f) with (e + Zpos p) by lia.
    replace (e + Zpos p - e) with (Zpos p) by lia.
    destruct (iter_pos_shr_1 p (shr_record_of_loc m l)) as [Hs He].
    { now rewrite shr_record_of_loc_m. }
    rewrite shr_record_of_loc_m in Hs, He.
    rewrite shr_record_of_loc_exact in He.
    rewrite loc_of_shr_record_exact. intuition.
  - replace (Z.max e f) with e by lia. rewrite Z.sub_diag.
    change (2 ^ 0) with 1. rewrite Z.div_1_r, Z.mod_1_r.
    rewrite shr_record_of_loc_m, loc_of_shr_record_exact, shr_record_of_loc_exact.
    intuition.
Qed.

Lemma round_nearest_even_spec m l :
  (round_nearest_even m l = m \/ round_nearest_even m l = m + 1)
  /\ (l = loc_Exact -> round_nearest_even m l = m).
Proof.
  destruct l as [|[| |]]; cbn; try destruct (Z.even m); auto; split; auto;
    discriminate.
Qed.

(** *** The arithmetic reading of [binary_round_aux] *)

Lemma binary_round_aux_spec s mx ex lx :
  0 <= mx ->
  exists m1 m2 m3 e1 e3,
    e1 = Z.max ex (fexp prec emax (Zdigits2 mx + ex))
    /\ m1 = mx / 2 ^ (e1 - ex)
    /\ (m2 = m1 \/ m2 = m1 + 1)
    /\ (lx = loc_Exact -> mx mod 2 ^ (e1 - ex) = 0 -> m2 = m1)
    /\ e3 = Z.max e1 (fexp prec emax (Zdigits2 m2 + e1))
    /\ m3 = m2 / 2 ^ (e3 - e1)
    /\ binary_round_aux prec emax s mx ex lx = float_of_parts s m3 e3.
Proof.
  intros Hmx. unfold binary_round_aux.
  destruct (shr_fexp_spec mx ex lx Hmx) as (He1 & Hm1 & Hx1).
  destruct (shr_fexp prec emax mx ex lx) as [mrs1 e1]. cbn [fst snd] in *.
  destruct (round_nearest_even_spec (shr_m mrs1) (loc_of_shr_record mrs1))
    as [Hm2 Hx2].
  set (m2 := round_nearest_even (shr_m mrs1) (loc_of_shr_record mrs1)) in *.
  assert (H1 : 0 <= shr_m mrs1).
  { rewrite Hm1. apply Z.div_pos; [assumption|]. apply Z.pow_pos_nonneg; lia. }
  assert (H2 : 0 <= m2) by lia.
  destruct (shr_fexp_spec m2 e1 loc_Exact H2) as (He3 & Hm3 & _).
  destruct (shr_fexp prec emax m2 e1 loc_Exact) as [mrs3 e3]. cbn [fst snd] in *.
  exists (shr_m mrs1), m2, (shr_m mrs3), e1, e3.
  split; [|split; [|split; [|split; [|split; [|split]]]]].
  - exact He1.
  - rewrite He1. exact Hm1.
  - exact Hm2.
  - intros -> Hmod. apply Hx2, Hx1. rewrite He1 in Hmod. auto.
  - exact He3.
  - rewrite He3. exact Hm3.
  - reflexivity.
Qed.

Lemma Zdigits2_pos_iff m : 0 <= m -> (0 < Zdigits2 m <-> 0 < m).
Proof. destruct m; cbn; lia. Qed.

Lemma Zdigits2_succ m : 0 <= m -> Zdigits2 (m + 1) <= Zdigits2 m + 1.
Proof.
  intros Hm. pose proof (Zdigits2_nonneg m) as Hd.
  apply Zdigits2_le_iff; [lia|lia|].
  assert (m < 2 ^ Zdigits2 m) by (apply Zdigits2_le_iff; lia).
  rewrite Z.pow_add_r by lia. change (2 ^ 1) with 2. lia.
Qed.

(** The same reading with the sizes of the intermediate significands. *)
Lemma binary_round_aux_parts s mx ex lx :
  0 <= mx ->
  exists m1 m2 m3 e1 e3,
    e1 = Z.max ex (Z.max (Zdigits2 mx + ex - 53) (-1074))
    /\ m1 = mx / 2 ^ (e1 - ex)
    /\ 0 <= m1 <= m2 /\ m2 <= m1 + 1
    /\ (lx = loc_Exact -> mx mod 2 ^ (e1 - ex) = 0 -> m2 = m1)
    /\ e3 = Z.max e1 (Z.max (Zdigits2 m2 + e1 - 53) (-1074))
    /\ m3 = m2 / 2 ^ (e3 - e1)
    /\ 0 <= m3
    /\ Zdigits2 m1 = Z.max 0 (Zdigits2 mx - (e1 - ex))
    /\ Zdigits2 m1 <= Zdigits2 m2 <= Zdigits2 m1 + 1
    /\ Zdigits2 m3 = Z.max 0 (Zdigits2 m2 - (e3 - e1))
    /\ binary_round_aux prec emax s mx ex lx = float_of_parts s m3 e3.
Proof.
  intros Hmx.
  destruct (binary_round_aux_spec s mx ex lx Hmx)
    as (m1 & m2 & m3 & e1 & e3 & He1 & Hm1 & Hm2 & Hx & He3 & Hm3 & Hr).
  rewrite fexp_eq in He1, He3.
  assert (H1 : 0 <= m1).
  { rewrite Hm1. apply Z.div_pos; [assumption|]. apply Z.pow_pos_nonneg; lia. }
  assert (H2 : 0 <= m2) by lia.
  assert (H3 : 0 <= m3).
  { rewrite Hm3. apply Z.div_pos; [assumption|]. apply Z.pow_pos_nonneg; lia. }
  exists m1, m2, m3, e1, e3.
  repeat match goal with |- _ /\ _ => split end;
    try assumption; try lia.
  - rewrite Hm1. apply Zdigits2_div; lia.
  - apply Zdigits2_mono; lia.
  - destruct Hm2 as [->| ->]; [lia | now apply Zdigits2_succ].
  - rewrite Hm3. apply Zdigits2_div; lia.
Qed.

(** A significand that starts at or below its [fexp] exponent rounds to a
    canonical float. *)
Lemma binary_round_aux_valid s mx ex lx :
  0 <= mx -> ex <= fexp prec emax (Zdigits2 mx + ex) ->
  valid_binary prec emax (binary_round_aux prec emax s mx ex lx) = true.
Proof.
  intros Hmx Hex. rewrite fexp_eq in Hex.
  destruct (binary_round_aux_parts s mx ex lx Hmx)
    as (m1 & m2 & m3 & e1 & e3 & He1 & Hm1 & [H1 H12] & H21 & Hx & He3 & Hm3
        & H3 & Hd1 & Hd2 & Hd3 & ->).
  pose proof (Zdigits2_nonneg mx).
  unfold float_of_parts.
  destruct m3 as [|p|p]; [reflexivity| |lia].
  destruct (e3 <=? emax - prec) eqn:Hle; [|reflexivity].
  cbn [valid_binary]. unfold bounded, canonical_mantissa.
  rewrite Hle, andb_true_r. apply Z.eqb_eq. rewrite fexp_eq.
  change (Zpos (digits2_pos p)) with (Zdigits2 (Zpos p)).
  assert (0 < Zdigits2 (Zpos p)) by (apply Zdigits2_pos_iff; lia).
  lia.
Qed.

(** *** Rounding against a representable threshold *)

Lemma bounded_parts mc ec :
  bounded prec emax mc ec = true ->
  Z.max (Zdigits2 (Zpos mc) + ec - 53) (-1074) = ec /\ ec <= 971.
Proof.
  unfold bounded, canonical_mantissa. intros H.
  apply andb_true_iff in H. destruct H as [Hc He].
  apply Z.eqb_eq in Hc. apply Z.leb_le in He.
  rewrite fexp_eq in Hc. split; [exact Hc | exact He].
Qed.

Lemma pow2_pos k : 0 <= k -> 0 < 2 ^ k.
Proof. intros. apply Z.pow_pos_nonneg; lia. Qed.

Lemma pow2_split a b c :
  a <= b <= c -> 2 ^ (c - a) = 2 ^ (c - b) * 2 ^ (b - a).
Proof.
  intros. rewrite <- Z.pow_add_r by lia. f_equal. lia.
Qed.

Lemma SFleb_finite_pos m1 e1 m2 e2 :
  e1 < e2 \/ (e1 = e2 /\ Zpos m1 <= Zpos m2) ->
  SFleb (S754_finite false m1 e1) (S754_finite false m2 e2) = true.
Proof.
  unfold SFleb, SFcompare. intros [Hlt|[-> Hle]].
  - apply Z.compare_lt_iff in Hlt. now rewrite Hlt.
  - rewrite Z.compare_refl.
    change (Pos.compare_cont Eq m1 m2) with (Zpos m1 ?= Zpos m2).
    destruct (Z.compare_spec (Zpos m1) (Zpos m2)); [reflexivity|reflexivity|lia].
Qed.

(** A value at or below a canonical float does not round above it. *)
Lemma binary_round_aux_le mx ex lx mc ec :
  0 <= mx -> ex <= ec -> bounded prec emax mc ec = true ->
  mx < Zpos mc * 2 ^ (ec - ex)
  \/ (mx = Zpos mc * 2 ^ (ec - ex) /\ lx = loc_Exact) ->
  SFleb (binary_round_aux prec emax false mx ex lx) (S754_finite false mc ec)
  = true.
Proof.
  intros Hmx Hex Hb Hle.
  destruct (bounded_parts mc ec Hb) as [Hc Hec].
  destruct (binary_round_aux_parts false mx ex lx Hmx)
    as (m1 & m2 & m3 & e1 & e3 & He1 & Hm1 & [H1 H12] & H21 & Hx & He3 & Hm3
        & H3 & Hd1 & Hd2 & Hd3 & ->).
  pose proof (Zdigits2_nonneg mx) as Hdx.
  pose proof (pow2_pos (ec - ex) ltac:(lia)) as Hp.
  assert (Hdmx : Zdigits2 mx <= Zdigits2 (Zpos mc) + (ec - ex)).
  { rewrite <- Zdigits2_shift by lia. apply Zdigits2_mono. lia. }
  assert (He1c : e1 <= ec) by lia.
  assert (Hex1 : ex <= e1) by lia.
  pose proof (pow2_pos (e1 - ex) ltac:(lia)) as Hp1.
  pose proof (pow2_pos (ec - e1) ltac:(lia)) as Hpc1.
  assert (HK : Zpos mc * 2 ^ (ec - ex) = Zpos mc * 2 ^ (ec - e1) * 2 ^ (e1 - ex)).
  { rewrite (pow2_split ex e1 ec) by lia. ring. }
  assert (Hm2 : m2 <= Zpos mc * 2 ^ (ec - e1)).
  { destruct Hle as [Hlt|[Heq Hl]].
    - assert (m1 < Zpos mc * 2 ^ (ec - e1)).
      { rewrite Hm1. apply Z.div_lt_upper_bound; [lia|].
        rewrite HK in Hlt. lia. }
      lia.
    - rewrite HK in Heq.
      assert (m2 = m1).
      { apply Hx; [assumption|]. rewrite Heq. apply Z.mod_mul. lia. }
      assert (m1 = Zpos mc * 2 ^ (ec - e1)).
      { rewrite Hm1, Heq. apply Z.div_mul. lia. }
      lia. }
  assert (Hdm2 : Zdigits2 m2 <= Zdigits2 (Zpos mc) + (ec - e1)).
  { rewrite <- Zdigits2_shift by lia. apply Zdigits2_mono. lia. }
  assert (He3c : e3 <= ec) by lia.
  assert (He13 : e1 <= e3) by lia.
  pose proof (pow2_pos (e3 - e1) ltac:(lia)) as Hp3.
  assert (Hm3' : m3 <= Zpos mc * 2 ^ (ec - e3)).
  { rewrite Hm3.
    rewrite (pow2_split e1 e3 ec) in Hm2 by lia.
    rewrite Z.mul_assoc in Hm2.
    apply Z.div_le_upper_bound; [lia|]. lia. }
  unfold float_of_parts.
  destruct m3 as [|p|p]; [reflexivity| |lia].
  replace (e3 <=? emax - prec) with true
    by (symmetry; apply Z.leb_le; unfold emax, prec; lia).
  apply SFleb_finite_pos.
  destruct (Z.eq_dec e3 ec) as [->|Hne]; [right|left; lia].
  split; [reflexivity|]. rewrite Z.sub_diag in Hm3'. change (2 ^ 0) with 1 in Hm3'.
  lia.
Qed.

(** A value at or above a canonical float does not round below it. *)
Lemma binary_round_aux_ge mx ex lx mc ec :
  0 <= mx -> ex <= ec -> bounded prec emax mc ec = true ->
  Zpos mc * 2 ^ (ec - ex) <= mx ->
  SFleb (S754_finite false mc ec) (binary_round_aux prec emax false mx ex lx)
  = true.
Proof.
  intros Hmx Hex Hb Hge.
  destruct (bounded_parts mc ec Hb) as [Hc Hec].
  destruct (binary_round_aux_parts false mx ex lx Hmx)
    as (m1 & m2 & m3 & e1 & e3 & He1 & Hm1 & [H1 H12] & H21 & Hx & He3 & Hm3
        & H3 & Hd1 & Hd2 & Hd3 & ->).
  pose proof (Zdigits2_nonneg mx) as Hdx.
  pose proof (pow2_pos (ec - ex) ltac:(lia)) as Hp.
  assert (Hmx0 : 0 < mx) by nia.
  assert (Hdmc : 0 < Zdigits2 (Zpos mc)) by (cbn; lia).
  assert (Hdmx : Zdigits2 (Zpos mc) + (ec - ex) <= Zdigits2 mx).
  { rewrite <- Zdigits2_shift by lia. apply Zdigits2_mono. lia. }
  assert (Hm3pos : -1074 < e3 -> 0 < m3).
  { intros He. apply Zdigits2_pos_iff; [assumption|]. lia. }
  assert (Hcase : ec < e3 \/ e3 <= ec) by lia.
  destruct Hcase as [Hbig|Hsmall].
  - (* the result has a larger exponent *)
    assert (0 < m3) by (apply Hm3pos; lia).
    unfold float_of_parts. destruct m3 as [|p|p]; try lia.
    destruct (e3 <=? emax - prec); [|reflexivity].
    apply SFleb_finite_pos. left. assumption.
  - assert (He13 : e1 <= e3) by lia.
    assert (Hex1 : ex <= e1) by lia.
    pose proof (pow2_pos (e1 - ex) ltac:(lia)) as Hp1.
    pose proof (pow2_pos (ec - e1) ltac:(lia)) as Hpc1.
    pose proof (pow2_pos (e3 - e1) ltac:(lia)) as Hp3.
    pose proof (pow2_pos (ec - e3) ltac:(lia)) as Hpc3.
    assert (HK : Zpos mc * 2 ^ (ec - ex)
                 = 2 ^ (e1 - ex) * (Zpos mc * 2 ^ (ec - e1))).
    { rewrite (pow2_split ex e1 ec) by lia. ring. }
    assert (Hm1' : Zpos mc * 2 ^ (ec - e1) <= m1).
    { rewrite Hm1. apply Z.div_le_lower_bound; [lia|]. lia. }
    assert (Hm3' : Zpos mc * 2 ^ (ec - e3) <= m3).
    { rewrite Hm3. apply Z.div_le_lower_bound; [lia|].
      rewrite (pow2_split e1 e3 ec) in Hm1' by lia. lia. }
    assert (0 < m3) by nia.
    assert (Hd3' : Zdigits2 (Zpos mc) + (ec - e3) <= Zdigits2 m3).
    { rewrite <- Zdigits2_shift by lia. apply Zdigits2_mono. lia. }
    unfold float_of_parts. destruct m3 as [|p|p]; try lia.
    destruct (e3 <=? emax - prec); [|reflexivity].
    apply SFleb_finite_pos.
    destruct (Z.eq_dec e3 ec) as [->|Hne].
    + right. split; [reflexivity|].
      rewrite Z.sub_diag in Hm3'. change (2 ^ 0) with 1 in Hm3'. lia.
    + exfalso. lia.
Qed.

(** A non-zero significand whose exponent is already above the one of a
    canonical float rounds above that float. *)
Lemma binary_round_aux_above mx ex lx mc ec :
  0 < mx -> ec < ex -> bounded prec emax mc ec = true ->
  SFleb (S754_finite false mc ec) (binary_round_aux prec emax false mx ex lx)
  = true.
Proof.
  intros Hmx Hex Hb.
  destruct (bounded_parts mc ec Hb) as [Hc Hec].
  destruct (binary_round_aux_parts false mx ex lx ltac:(lia))
    as (m1 & m2 & m3 & e1 & e3 & He1 & Hm1 & [H1 H12] & H21 & Hx & He3 & Hm3
        & H3 & Hd1 & Hd2 & Hd3 & ->).
  assert (0 < Zdigits2 mx) by (apply Zdigits2_pos_iff; lia).
  assert (0 < m3) by (apply Zdigits2_pos_iff; [assumption|lia]).
  unfold float_of_parts. destruct m3 as [|p|p]; try lia.
  destruct (e3 <=? emax - prec); [|reflexivity].
  apply SFleb_finite_pos. left. lia.
Qed.

(** *** Integer division rounded to binary64 *)

Lemma new_location_exact n k : new_location n k = loc_Exact <-> k = 0.
Proof.
  unfold new_location, new_location_even, new_location_odd.
  destruct (Z.even n); destruct (Z.eqb_spec k 0); intuition; discriminate.
Qed.

Lemma SFdiv_core_binary_ints (a b : positive) :
  let e := div_exponent a b in
  exists l,
    SFdiv_core_binary prec emax (Zpos a) 0 (Zpos b) 0
    = (Zpos a * 2 ^ (- e) / Zpos b, e, l)
    /\ (l = loc_Exact <-> (Zpos a * 2 ^ (- e)) mod Zpos b = 0).
Proof.
  intros e. unfold SFdiv_core_binary.
  rewrite !Z.add_0_r, fexp_eq. change (0 - 0) with 0.
  fold (div_exponent a b). fold e.
  assert (He : e <= 0) by (unfold e, div_exponent; lia).
  set (m' := match 0 - e with
             | 0 => Zpos a
             | Zpos _ => Z.shiftl (Zpos a) (0 - e)
             | Zneg _ => 0
             end).
  assert (Hm' : m' = Zpos a * 2 ^ (- e)).
  { unfold m'. replace (0 - e) with (- e) by lia.
    destruct (- e) as [|p|p] eqn:E; try lia.
    apply Z.shiftl_mul_pow2. lia. }
  rewrite Hm'.
  pose proof (Z_div_mod_full (Zpos a * 2 ^ (- e)) (Zpos b) ltac:(lia)) as Hdm.
  unfold Z.div, Z.modulo.
  destruct (Z.div_eucl (Zpos a * 2 ^ (- e)) (Zpos b)) as [q r].
  exists (new_location (Zpos b) r). split; [reflexivity|].
  apply new_location_exact.
Qed.

Lemma Zdigits2_mul_le a b :
  0 <= a -> 0 <= b -> Zdigits2 (a * b) <= Zdigits2 a + Zdigits2 b.
Proof.
  intros Ha Hb.
  pose proof (Zdigits2_nonneg a). pose proof (Zdigits2_nonneg b).
  apply Zdigits2_le_iff; [nia|lia|].
  assert (a < 2 ^ Zdigits2 a) by (apply Zdigits2_le_iff; lia).
  assert (b < 2 ^ Zdigits2 b) by (apply Zdigits2_le_iff; lia).
  rewrite Z.pow_add_r by lia. nia.
Qed.

Lemma Zdigits2_mul_ge a b :
  0 < a -> 0 < b -> Zdigits2 a + Zdigits2 b - 1 <= Zdigits2 (a * b).
Proof.
  intros Ha Hb.
  pose proof (Zdigits2_bounds a Ha) as [Hla _].
  pose proof (Zdigits2_bounds b Hb) as [Hlb _].
  assert (0 < Zdigits2 a) by (apply Zdigits2_pos_iff; lia).
  assert (0 < Zdigits2 b) by (apply Zdigits2_pos_iff; lia).
  destruct (Z.le_gt_cases (Zdigits2 a + Zdigits2 b - 1) (Zdigits2 (a * b)))
    as [|Hgt]; [assumption|exfalso].
  assert (Hle : Zdigits2 (a * b) <= (Zdigits2 a - 1) + (Zdigits2 b - 1)) by lia.
  apply Zdigits2_le_iff in Hle; [|nia|lia].
  rewrite Z.pow_add_r in Hle by lia.
  assert (0 < 2 ^ (Zdigits2 a - 1)) by (apply pow2_pos; lia).
  assert (0 < 2 ^ (Zdigits2 b - 1)) by (apply pow2_pos; lia).
  nia.
Qed.

(** If [a / b] is at most the canonical float [mc * 2^ec] then so is the
    rounded quotient. *)
Lemma div_pos_le (a b mc : positive) (ec : Z) :
  bounded prec emax mc ec = true -> ec <= 0 ->
  Zpos a * 2 ^ (- ec) <= Zpos mc * Zpos b ->
  SFleb (div_pos a b) (S754_finite false mc ec) = true.
Proof.
  intros Hb Hec Hle.
  destruct (bounded_parts mc ec Hb) as [Hc _].
  unfold div_pos, SFdiv.
  destruct (SFdiv_core_binary_ints a b) as (l & -> & Hl).
  cbn [xorb].
  set (e := div_exponent a b) in *.
  pose proof (pow2_pos (- ec) ltac:(lia)) as Hpc.
  assert (Hd : Zdigits2 (Zpos a) + (- ec)
               <= Zdigits2 (Zpos mc) + Zdigits2 (Zpos b)).
  { rewrite <- Zdigits2_shift by lia.
    etransitivity; [|apply Zdigits2_mul_le; lia].
    apply Zdigits2_mono. lia. }
  assert (He : e <= ec) by (unfold e, div_exponent; lia).
  pose proof (pow2_pos (- e) ltac:(lia)) as Hpe.
  pose proof (pow2_pos (ec - e) ltac:(lia)) as Hpce.
  assert (Hs : 2 ^ (- e) = 2 ^ (- ec) * 2 ^ (ec - e)).
  { rewrite <- Z.pow_add_r by lia. f_equal. lia. }
  assert (Hab : Zpos a * 2 ^ (- e) <= Zpos b * (Zpos mc * 2 ^ (ec - e))).
  { rewrite Hs. nia. }
  apply binary_round_aux_le; [|assumption|assumption|].
  - apply Z.div_pos; lia.
  - pose proof (Z_div_mod_eq_full (Zpos a * 2 ^ (- e)) (Zpos b)) as Hdm.
    pose proof (Z.mod_pos_bound (Zpos a * 2 ^ (- e)) (Zpos b) ltac:(lia)) as Hr.
    set (q := Zpos a * 2 ^ (- e) / Zpos b) in *.
    set (r := (Zpos a * 2 ^ (- e)) mod Zpos b) in *.
    set (K := Zpos mc * 2 ^ (ec - e)) in *.
    assert (Hq : q <= K).
    { destruct (Z.le_gt_cases q K); [assumption|exfalso]. nia. }
    destruct (Z.eq_dec q K) as [Heq|Hne]; [right|left; lia].
    split; [assumption|]. apply Hl. nia.
Qed.

(** If [a / b] is at least the canonical float [mc * 2^ec] then so is the
    rounded quotient. *)
Lemma div_pos_ge (a b mc : positive) (ec : Z) :
  bounded prec emax mc ec = true -> ec <= 0 ->
  Zpos mc * Zpos b <= Zpos a * 2 ^ (- ec) ->
  SFleb (S754_finite false mc ec) (div_pos a b) = true.
Proof.
  intros Hb Hec Hge.
  destruct (bounded_parts mc ec Hb) as [Hc _].
  unfold div_pos, SFdiv.
  destruct (SFdiv_core_binary_ints a b) as (l & -> & Hl).
  cbn [xorb].
  set (e := div_exponent a b) in *.
  assert (He0 : e <= 0) by (unfold e, div_exponent; lia).
  pose proof (pow2_pos (- ec) ltac:(lia)) as Hpc.
  pose proof (pow2_pos (- e) ltac:(lia)) as Hpe.
  set (q := Zpos a * 2 ^ (- e) / Zpos b).
  assert (Hq0 : 0 <= q) by (apply Z.div_pos; lia).
  destruct (Z.le_gt_cases e ec) as [He|He].
  - pose proof (pow2_pos (ec - e) ltac:(lia)) as Hpce.
    assert (Hs : 2 ^ (- e) = 2 ^ (- ec) * 2 ^ (ec - e)).
    { rewrite <- Z.pow_add_r by lia. f_equal. lia. }
    apply binary_round_aux_ge; try assumption.
    apply Z.div_le_lower_bound; [lia|]. rewrite Hs. nia.
  - (* the quotient is already beyond the threshold's binade *)
    assert (He' : e <= Zdigits2 (Zpos a) - Zdigits2 (Zpos b) - 53)
      by (unfold e, div_exponent in *; lia).
    pose proof (Zdigits2_bounds (Zpos a) ltac:(lia)) as [Hla _].
    pose proof (Zdigits2_bounds (Zpos b) ltac:(lia)) as [_ Hhb].
    assert (0 < Zdigits2 (Zpos a)) by (cbn; lia).
    assert (0 < Zdigits2 (Zpos b)) by (cbn; lia).
    assert (Hbig : Zpos b * 1 <= Zpos a * 2 ^ (- e)).
    { assert (2 ^ Zdigits2 (Zpos b) <= 2 ^ (Zdigits2 (Zpos a) - 1) * 2 ^ (- e)).
      { rewrite <- Z.pow_add_r by lia. apply Z.pow_le_mono_r; lia. }
      nia. }
    assert (Hq1 : 1 <= q) by (apply Z.div_le_lower_bound; lia).
    apply binary_round_aux_above; [lia|assumption|assumption].
Qed.

(** The rounded quotient of two positive ints is a canonical float. *)
Lemma div_pos_valid (a b : positive) :
  valid_binary prec emax (div_pos a b) = true.
Proof.
  unfold div_pos, SFdiv.
  destruct (SFdiv_core_binary_ints a b) as (l & -> & Hl).
  cbn [xorb].
  set (e := div_exponent a b) in *.
  assert (He0 : e <= 0) by (unfold e, div_exponent; lia).
  pose proof (pow2_pos (- e) ltac:(lia)) as Hpe.
  set (q := Zpos a * 2 ^ (- e) / Zpos b).
  assert (Hq0 : 0 <= q) by (apply Z.div_pos; lia).
  apply binary_round_aux_valid; [assumption|].
  rewrite fexp_eq.
  pose proof (Zdigits2_nonneg q) as Hdq.
  assert (Hd : Zdigits2 (Zpos a) - Zdigits2 (Zpos b) - e <= Zdigits2 q).
  { set (k := Zdigits2 (Zpos a) - Zdigits2 (Zpos b) - e - 1).
    destruct (Z.le_gt_cases 0 k) as [Hk|Hk]; [|lia].
    pose proof (Zdigits2_bounds (Zpos a) ltac:(lia)) as [Hla _].
    pose proof (Zdigits2_bounds (Zpos b) ltac:(lia)) as [_ Hhb].
    assert (0 < Zdigits2 (Zpos a)) by (cbn; lia).
    assert (0 < Zdigits2 (Zpos b)) by (cbn; lia).
    assert (Hlow : 2 ^ k <= q).
    { apply Z.div_le_lower_bound; [lia|].
      assert (2 ^ Zdigits2 (Zpos b) * 2 ^ k
              = 2 ^ (Zdigits2 (Zpos a) - 1) * 2 ^ (- e)).
      { rewrite <- !Z.pow_add_r by lia. f_equal. unfold k. lia. }
      pose proof (pow2_pos k Hk). nia. }
    destruct (Z.le_gt_cases (k + 1) (Zdigits2 q)) as [|Hgt]; [lia|exfalso].
    assert (Hle : Zdigits2 q <= k) by lia.
    apply Zdigits2_le_iff in Hle; lia. }
  unfold e, div_exponent in *. lia.
Qed.

(** *** Signs and comparisons *)

Lemma float_of_parts_nonneg m e : 0 <= m -> is_nonneg (float_of_parts false m e) = true.
Proof.
  unfold float_of_parts. destruct m; try lia; intros _; [reflexivity|].
  now destruct (e <=? emax - prec).
Qed.

Lemma binary_round_aux_nonneg mx ex lx :
  0 <= mx -> is_nonneg (binary_round_aux prec emax false mx ex lx) = true.
Proof.
  intros Hmx.
  destruct (binary_round_aux_parts false mx ex lx Hmx)
    as (m1 & m2 & m3 & e1 & e3 & _ & _ & _ & _ & _ & _ & _ & H3 & _ & _ & _ & ->).
  now apply float_of_parts_nonneg.
Qed.

Lemma is_nonneg_ge_0 x : is_nonneg x = true -> float_ge_int x 0 = true.
Proof. destruct x as [s|[|]| |[|] m e]; try discriminate; reflexivity. Qed.

Lemma SFleb_finite_pos_inv m1 e1 m2 e2 :
  SFleb (S754_finite false m1 e1) (S754_finite false m2 e2) = true ->
  e1 < e2 \/ (e1 = e2 /\ Zpos m1 <= Zpos m2).
Proof.
  unfold SFleb, SFcompare.
  destruct (Z.compare_spec e1 e2) as [->|Hlt|Hgt]; try discriminate; [|lia].
  change (Pos.compare_cont Eq m1 m2) with (Zpos m1 ?= Zpos m2).
  destruct (Z.compare_spec (Zpos m1) (Zpos m2)); try discriminate; lia.
Qed.

(** Two-sided comparison with a positive finite float pins the value. *)
Lemma SFleb_antisym x mc ec :
  SFleb x (S754_finite false mc ec) = true ->
  SFleb (S754_finite false mc ec) x = true ->
  x = S754_finite false mc ec.
Proof.
  destruct x as [s|[|]| |[|] m e]; try discriminate.
  intros H1 H2.
  apply SFleb_finite_pos_inv in H1, H2.
  assert (e = ec) by lia. subst e.
  assert (Zpos m = Zpos mc) by lia.
  congruence.
Qed.

(** *** The quotient [score / total] *)

Lemma int_truediv_pos (a b : positive) :
  int_truediv (Zpos a) (Zpos b) = div_pos a b.
Proof. reflexivity. Qed.

Lemma int_truediv_0 (b : positive) : int_truediv 0 (Zpos b) = S754_zero false.
Proof. reflexivity. Qed.

Lemma div_pos_nonneg (a b : positive) : is_nonneg (div_pos a b) = true.
Proof.
  unfold div_pos, SFdiv.
  destruct (SFdiv_core_binary_ints a b) as (l & -> & _).
  apply binary_round_aux_nonneg.
  apply Z.div_pos; [|lia].
  apply Z.mul_nonneg_nonneg; [lia|].
  apply Z.pow_nonneg. lia.
Qed.

Lemma int_truediv_nonneg a b :
  0 <= a -> 0 < b -> is_nonneg (int_truediv a b) = true.
Proof.
  destruct a as [|a|a], b as [|b|b]; try lia; intros _ _.
  - reflexivity.
  - apply div_pos_nonneg.
Qed.

Lemma int_truediv_valid a b :
  0 <= a -> 0 < b -> valid_binary prec emax (int_truediv a b) = true.
Proof.
  destruct a as [|a|a], b as [|b|b]; try lia; intros _ _.
  - reflexivity.
  - apply div_pos_valid.
Qed.

Lemma int_truediv_le_1 a b :
  0 <= a <= b -> 0 < b -> float_le_int (int_truediv a b) 1 = true.
Proof.
  destruct a as [|a|a], b as [|b|b]; try lia; intros Hab _.
  - reflexivity.
  - rewrite int_truediv_pos. unfold float_le_int.
    change (float_of_int 1) with (S754_finite false 4503599627370496 (-52)).
    apply div_pos_le; [reflexivity|lia|].
    change (- -52) with 52. lia.
Qed.


(** All the answers right: the quotient is exactly one. *)
Lemma int_truediv_same a : 0 < a -> int_truediv a a = float_of_int 1.
Proof.
  destruct a as [|a|a]; try lia; intros _.
  rewrite int_truediv_pos.
  change (float_of_int 1) with (S754_finite false 4503599627370496 (-52)).
  apply SFleb_antisym.
  - apply div_pos_le; [reflexivity|lia|]. change (- -52) with 52. lia.
  - apply div_pos_ge; [reflexivity|lia|]. change (- -52) with 52. lia.
Qed.

(** *** Times one hundred *)

Lemma valid_finite_parts s m e :
  valid_binary prec emax (S754_finite s m e) = true ->
  Z.max (Zdigits2 (Zpos m) + e - 53) (-1074) = e /\ e <= 971.
Proof. apply bounded_parts. Qed.

Lemma float_mul_int_100_finite s m e :
  float_mul_int (S754_finite s m e) 100
  = binary_round_aux prec emax s (Zpos (m * 7036874417766400)) (e + -46)
      loc_Exact.
Proof.
  unfold float_mul_int.
  change (float_of_int 100) with (S754_finite false 7036874417766400 (-46)).
  cbn [SFmul]. now destruct s.
Qed.

Lemma float_mul_int_100_nonneg x :
  is_nonneg x = true -> is_nonneg (float_mul_int x 100) = true.
Proof.
  destruct x as [s|[|]| |[|] m e]; try discriminate; intros _; try reflexivity.
  rewrite float_mul_int_100_finite. now apply binary_round_aux_nonneg.
Qed.

Lemma float_mul_int_100_valid x :
  valid_binary prec emax x = true ->
  valid_binary prec emax (float_mul_int x 100) = true.
Proof.
  destruct x as [s|s| |s m e]; try reflexivity.
  intros Hv. destruct (valid_finite_parts s m e Hv) as [Hc He].
  rewrite float_mul_int_100_finite.
  apply binary_round_aux_valid; [lia|].
  rewrite fexp_eq, Pos2Z.inj_mul.
  pose proof (Zdigits2_mul_ge (Zpos m) 7036874417766400 ltac:(lia) ltac:(lia))
    as Hd.
  change (Zdigits2 7036874417766400) with 53 in Hd.
  lia.
Qed.

Lemma float_mul_int_100_le x :
  valid_binary prec emax x = true -> is_nonneg x = true ->
  float_le_int x 1 = true ->
  float_le_int (float_mul_int x 100) 100 = true.
Proof.
  destruct x as [s|[|]| |[|] m e]; try discriminate; intros Hv _ Hle;
    try reflexivity.
  destruct (valid_finite_parts false m e Hv) as [Hc He].
  unfold float_le_int in *.
  change (float_of_int 1) with (S754_finite false 4503599627370496 (-52)) in Hle.
  apply SFleb_finite_pos_inv in Hle.
  rewrite float_mul_int_100_finite.
  change (float_of_int 100) with (S754_finite false 7036874417766400 (-46)).
  assert (Hm : Zpos m <= 2 ^ (- e)).
  { destruct Hle as [Hlt|[-> Hm]]; [|exact Hm].
    assert (Zdigits2 (Zpos m) <= 53) by lia.
    apply Zdigits2_le_iff in H; [|lia|lia].
    assert (2 ^ 53 <= 2 ^ (- e)) by (apply Z.pow_le_mono_r; lia).
    lia. }
  apply binary_round_aux_le; [lia|lia|reflexivity|].
  replace (-46 - (e + -46)) with (- e) by lia.
  rewrite Pos2Z.inj_mul.
  destruct (Z.eq_dec (Zpos m) (2 ^ (- e))) as [Heq|Hne].
  - right. split; [|reflexivity]. rewrite Heq. ring.
  - left. nia.
Qed.


(** *** Rounding to two decimals *)

Lemma div_half_even_le a b k : 0 < b -> a <= k * b -> div_half_even a b <= k.
Proof.
  intros Hb Hle. unfold div_half_even.
  pose proof (Z_div_mod_eq_full a b) as Hdm.
  pose proof (Z.mod_pos_bound a b Hb) as Hr.
  assert (Hq : a / b <= k).
  { destruct (Z.le_gt_cases (a / b) k); [assumption|exfalso]. nia. }
  destruct (Z.eq_dec (a / b) k) as [Heq|Hne].
  - assert (a mod b = 0) by nia.
    replace (2 * (a mod b) ?= b) with Lt; [lia|].
    symmetry. apply Z.compare_lt_iff. lia.
  - destruct (2 * (a mod b) ?= b); try destruct (Z.even (a / b)); lia.
Qed.

Lemma div_half_even_ge a b k : 0 < b -> k * b <= a -> k <= div_half_even a b.
Proof.
  intros Hb Hle. unfold div_half_even.
  pose proof (Z_div_mod_eq_full a b) as Hdm.
  pose proof (Z.mod_pos_bound a b Hb) as Hr.
  assert (Hq : k <= a / b) by (apply Z.div_le_lower_bound; lia).
  destruct (2 * (a mod b) ?= b); try destruct (Z.even (a / b)); lia.
Qed.

Lemma float_round_2_finite s m e :
  float_round (S754_finite s m e) 2
  = match scaled_half_even m e 2 with
    | Zpos n => SFdiv prec emax (S754_finite s n 0) (S754_finite false 100 0)
    | _ => S754_zero s
    end.
Proof. reflexivity. Qed.

Lemma float_round_2_nonneg x :
  is_nonneg x = true -> is_nonneg (float_round x 2) = true.
Proof.
  destruct x as [s|[|]| |[|] m e]; try discriminate; intros _; try reflexivity.
  rewrite float_round_2_finite.
  destruct (scaled_half_even m e 2); try reflexivity.
  apply div_pos_nonneg.
Qed.

Lemma float_round_2_le_100 x :
  valid_binary prec emax x = true -> is_nonneg x = true ->
  float_le_int x 100 = true ->
  float_le_int (float_round x 2) 100 = true.
Proof.
  destruct x as [s|[|]| |[|] m e]; try discriminate; intros Hv _ Hle;
    try reflexivity.
  destruct (valid_finite_parts false m e Hv) as [Hc He].
  unfold float_le_int in *.
  change (float_of_int 100) with (S754_finite false 7036874417766400 (-46))
    in *.
  apply SFleb_finite_pos_inv in Hle.
  rewrite float_round_2_finite.
  assert (Hn : scaled_half_even m e 2 <= 10000).
  { unfold scaled_half_even.
    replace (0 <=? e) with false by (symmetry; apply Z.leb_gt; lia).
    pose proof (pow2_pos (- e) ltac:(lia)) as Hp.
    apply div_half_even_le; [assumption|].
    change (10 ^ 2) with 100.
    destruct Hle as [Hlt|[-> Hm]].
    - assert (Zdigits2 (Zpos m) <= 53) by lia.
      apply Zdigits2_le_iff in H; [|lia|lia].
      assert (2 ^ 47 <= 2 ^ (- e)) by (apply Z.pow_le_mono_r; lia).
      change (2 ^ 53) with (64 * 2 ^ 47) in H. lia.
    - change (2 ^ (- -46)) with 70368744177664. lia. }
  destruct (scaled_half_even m e 2) as [|n|n]; try reflexivity.
  apply div_pos_le; [reflexivity|lia|].
  change (2 ^ (- -46)) with 70368744177664. lia.
Qed.

Lemma float_round_2_ge_70 x :
  valid_binary prec emax x = true ->
  float_ge_int x 70 = true ->
  float_ge_int (float_round x 2) 70 = true.
Proof.
  destruct x as [s|[|]| |[|] m e]; try discriminate; intros Hv Hge;
    try reflexivity.
  destruct (valid_finite_parts false m e Hv) as [Hc He].
  unfold float_ge_int in *.
  change (float_of_int 70) with (S754_finite false 4925812092436480 (-46)) in *.
  apply SFleb_finite_pos_inv in Hge.
  rewrite float_round_2_finite.
  assert (Hn : 7000 <= scaled_half_even m e 2).
  { unfold scaled_half_even. change (10 ^ 2) with 100.
    assert (Hbig : -46 < e -> 128 * 2 ^ 45 <= Zpos m).
    { intros Hgt.
      assert (Hd : Zdigits2 (Zpos m) = 53) by lia.
      pose proof (Zdigits2_bounds (Zpos m) ltac:(lia)) as [Hlo _].
      rewrite Hd in Hlo. exact Hlo. }
    destruct (Z.leb_spec 0 e) as [He0|He0].
    - pose proof (pow2_pos e He0).
      specialize (Hbig ltac:(lia)).
      assert (Zpos m * 1 <= Zpos m * 2 ^ e) by (apply Z.mul_le_mono_nonneg_l; lia).
      lia.
    - pose proof (pow2_pos (- e) ltac:(lia)) as Hp.
      apply div_half_even_ge; [assumption|].
      destruct Hge as [Hgt|[<- Hm]].
      + specialize (Hbig Hgt).
        assert (2 ^ (- e) <= 2 ^ 45) by (apply Z.pow_le_mono_r; lia).
        lia.
      + change (2 ^ (- -46)) with 70368744177664. lia. }
  destruct (scaled_half_even m e 2) as [|n|n]; try lia.
  apply div_pos_ge; [reflexivity|lia|].
  change (2 ^ (- -46)) with 70368744177664. lia.
Qed.

(** ** Grading: the loop *)

(** An iteration adds to the two accumulators what it would add to the
    initial ones. *)
Lemma grade_answer_from (quiz : Quiz.t) (a : QuizAnswer.t) score feedback :
  grade_answer quiz (score, feedback) a
  = (score + fst (grade_answer quiz (0, []) a),
     feedback ++ snd (grade_answer quiz (0, []) a)).
Proof.
  unfold grade_answer.
  destruct (find_question quiz (QuizAnswer.question_id a)) as [q|].
  - destruct (QuizAnswer.answer a =? QuizQuestion.correct_answer q);
      simpl; f_equal; lia.
  - simpl. now rewrite Z.add_0_r, app_nil_r.
Qed.

Lemma grade_loop_from (quiz : Quiz.t) (answers : list QuizAnswer.t) :
  forall score feedback,
    fold_left (grade_answer quiz) answers (score, feedback)
    = (score + fst (grade_loop quiz answers),
       feedback ++ snd (grade_loop quiz answers)).
Proof.
  unfold grade_loop.
  induction answers as [|a rest IH]; intros score feedback; cbn [fold_left].
  - cbn [fst snd]. now rewrite Z.add_0_r, app_nil_r.
  - rewrite (grade_answer_from quiz a score feedback), IH.
    destruct (grade_answer quiz (0, []) a) as [s1 f1] eqn:E.
    rewrite (IH s1 f1). cbn [fst snd].
    f_equal; [lia | now rewrite app_assoc].
Qed.

Lemma grade_loop_nil (quiz : Quiz.t) : grade_loop quiz [] = (0, []).
Proof. reflexivity. Qed.

Lemma grade_loop_cons (quiz : Quiz.t) a rest :
  grade_loop quiz (a :: rest)
  = (fst (grade_answer quiz (0, []) a) + fst (grade_loop quiz rest),
     snd (grade_answer quiz (0, []) a) ++ snd (grade_loop quiz rest)).
Proof.
  unfold grade_loop at 1. cbn [fold_left].
  destruct (grade_answer quiz (0, []) a) as [s1 f1].
  now rewrite grade_loop_from.
Qed.

Lemma grade_loop_app (quiz : Quiz.t) l1 l2 :
  grade_loop quiz (l1 ++ l2)
  = (fst (grade_loop quiz l1) + fst (grade_loop quiz l2),
     snd (grade_loop quiz l1) ++ snd (grade_loop quiz l2)).
Proof.
  unfold grade_loop at 1. rewrite fold_left_app.
  fold (grade_loop quiz l1).
  destruct (grade_loop quiz l1) as [s1 f1].
  now rewrite grade_loop_from.
Qed.

(** What a single answer contributes, by the three cases of the loop body. *)
Lemma grade_answer_unmatched (quiz : Quiz.t) a :
  find_question quiz (QuizAnswer.question_id a) = None ->
  grade_answer quiz (0, []) a = (0, []).
Proof. unfold grade_answer. now intros ->. Qed.

Lemma grade_answer_correct (quiz : Quiz.t) a q :
  find_question quiz (QuizAnswer.question_id a) = Some q ->
  QuizAnswer.answer a = QuizQuestion.correct_answer q ->
  grade_answer quiz (0, []) a = (1, [feedback_correct a q]).
Proof.
  unfold grade_answer. intros -> ->. now rewrite Z.eqb_refl.
Qed.

Lemma grade_answer_incorrect (quiz : Quiz.t) a q :
  find_question quiz (QuizAnswer.question_id a) = Some q ->
  QuizAnswer.answer a <> QuizQuestion.correct_answer q ->
  grade_answer quiz (0, []) a = (0, [feedback_incorrect a q]).
Proof.
  unfold grade_answer. intros -> H.
  apply Z.eqb_neq in H. now rewrite H.
Qed.

Lemma grade_loop_score (quiz : Quiz.t) answers :
  fst (grade_loop quiz answers)
  = Z.of_nat (List.length (filter (answered_right quiz) answers)).
Proof.
  induction answers as [|a rest IH]; [reflexivity|].
  rewrite grade_loop_cons. cbn [fst filter]. rewrite IH.
  unfold answered_right, grade_answer.
  destruct (find_question quiz (QuizAnswer.question_id a)) as [q|];
    [destruct (QuizAnswer.answer a =? QuizQuestion.correct_answer q)|];
    cbn [fst List.length]; lia.
Qed.

Lemma grade_loop_feedback_length (quiz : Quiz.t) answers :
  List.length (snd (grade_loop quiz answers))
  = List.length (filter (matched quiz) answers).
Proof.
  induction answers as [|a rest IH]; [reflexivity|].
  rewrite grade_loop_cons. cbn [snd filter]. rewrite length_app, IH.
  unfold matched, grade_answer.
  destruct (find_question quiz (QuizAnswer.question_id a)) as [q|];
    [destruct (QuizAnswer.answer a =? QuizQuestion.correct_answer q)|];
    reflexivity.
Qed.

(** ** Grading: the result *)

Lemma grade_fields (quiz : Quiz.t) (submission : QuizSubmission.t) :
  let gl := grade_loop quiz (QuizSubmission.answers submission) in
  let total := Z.of_nat (List.length (Quiz.questions quiz)) in
  grade quiz submission
  = {| QuizResult.score := fst gl;
       QuizResult.total := total;
       QuizResult.percentage := percentage_of (fst gl) total;
       QuizResult.passed := passed_of (fst gl) total;
       QuizResult.feedback := snd gl |}.
Proof.
  cbv zeta. unfold grade.
  now destruct (grade_loop quiz (QuizSubmission.answers submission)).
Qed.

Lemma submit_quiz_found quizzes_db quiz_id quiz submission :
  find_quiz quizzes_db quiz_id = Some quiz ->
  submit_quiz quizzes_db quiz_id submission = inr (grade quiz submission).
Proof. unfold submit_quiz. now intros ->. Qed.

(** With unique identifiers, every quiz of the store is the one its
    identifier resolves to. *)
Lemma find_quiz_unique quizzes_db quiz :
  NoDup (map Quiz.id quizzes_db) -> In quiz quizzes_db ->
  find_quiz quizzes_db (Quiz.id quiz) = Some quiz.
Proof.
  unfold find_quiz.
  induction quizzes_db as [|q rest IH]; [contradiction|].
  cbn [map find]. intros Hnd [->|Hin].
  - now rewrite Z.eqb_refl.
  - inversion Hnd as [|? ? Hq Hrest]; subst.
    destruct (Z.eqb_spec (Quiz.id q) (Quiz.id quiz)) as [Heq|_]; [|auto].
    exfalso. apply Hq. rewrite Heq. now apply in_map.
Qed.

Lemma find_quiz_absent quizzes_db quiz_id :
  (forall q, In q quizzes_db -> Quiz.id q <> quiz_id) <->
  find_quiz quizzes_db quiz_id = None.
Proof.
  unfold find_quiz. split.
  - intros H. destruct (find _ quizzes_db) as [q|] eqn:E; [|reflexivity].
    apply find_some in E. destruct E as [Hin Heq].
    apply Z.eqb_eq in Heq. now apply H in Hin.
  - intros H q Hin Heq.
    apply (find_none _ _ H) in Hin. apply Z.eqb_neq in Hin. contradiction.
Qed.

Lemma find_question_some quiz k q :
  find_question quiz k = Some q ->
  In q (Quiz.questions quiz) /\ QuizQuestion.id q = k.
Proof.
  unfold find_question. intros H. apply find_some in H.
  destruct H as [Hin Heq]. apply Z.eqb_eq in Heq. auto.
Qed.

Lemma find_question_none quiz k :
  (forall q, In q (Quiz.questions quiz) -> QuizQuestion.id q <> k) <->
  find_question quiz k = None.
Proof.
  unfold find_question. split.
  - intros H. destruct (find _ (Quiz.questions quiz)) as [q|] eqn:E;
      [|reflexivity].
    apply find_some in E. destruct E as [Hin Heq].
    apply Z.eqb_eq in Heq. now apply H in Hin.
  - intros H q Hin Heq.
    apply (find_none _ _ H) in Hin. apply Z.eqb_neq in Hin. contradiction.
Qed.

Lemma find_question_unique quiz q :
  NoDup (map QuizQuestion.id (Quiz.questions quiz)) ->
  In q (Quiz.questions quiz) ->
  find_question quiz (QuizQuestion.id q) = Some q.
Proof.
  unfold find_question.
  induction (Quiz.questions quiz) as [|q0 rest IH]; [contradiction|].
  cbn [map find]. intros Hnd [->|Hin].
  - now rewrite Z.eqb_refl.
  - inversion Hnd as [|? ? Hq Hrest]; subst.
    destruct (Z.eqb_spec (QuizQuestion.id q0) (QuizQuestion.id q)) as [Heq|_];
      [|auto].
    exfalso. apply Hq. rewrite Heq. now apply in_map.
Qed.

(** [matched] says that some question of the quiz carries the submitted
    identifier. *)
Lemma matched_iff quiz a :
  matched quiz a = true <->
  exists q, In q (Quiz.questions quiz)
            /\ QuizQuestion.id q = QuizAnswer.question_id a.
Proof.
  unfold matched.
  destruct (find_question quiz (QuizAnswer.question_id a)) as [q|] eqn:E.
  - apply find_question_some in E. split; [eauto | reflexivity].
  - split; [discriminate|]. intros (q & Hin & Hid).
    pose proof (proj2 (find_question_none quiz _) E q Hin) as Hne.
    contradiction.
Qed.

(** *** Bounds on the score *)

Lemma filter_length_le {A} (f : A -> bool) (l : list A) :
  (List.length (filter f l) <= List.length l)%nat.
Proof.
  induction l as [|a l IH]; cbn [filter List.length]; [lia|].
  destruct (f a); cbn [List.length]; lia.
Qed.

Lemma answered_right_matched quiz a :
  answered_right quiz a = true -> matched quiz a = true.
Proof.
  unfold answered_right, matched.
  now destruct (find_question quiz (QuizAnswer.question_id a)).
Qed.

Lemma right_le_matched quiz answers :
  (List.length (filter (answered_right quiz) answers)
   <= List.length (filter (matched quiz) answers))%nat.
Proof.
  induction answers as [|a rest IH]; cbn [filter]; [lia|].
  destruct (answered_right quiz a) eqn:Hr.
  - rewrite (answered_right_matched _ _ Hr). cbn [List.length]. lia.
  - destruct (matched quiz a); cbn [List.length]; lia.
Qed.

Lemma grade_loop_score_nonneg quiz answers : 0 <= fst (grade_loop quiz answers).
Proof. rewrite grade_loop_score. lia. Qed.

(** No identifier submitted twice: the score cannot pass the number of
    questions. *)
Lemma score_le_total_nodup quiz answers :
  NoDup (map QuizAnswer.question_id answers) ->
  fst (grade_loop quiz answers) <= Z.of_nat (List.length (Quiz.questions quiz)).
Proof.
  intros Hnd. rewrite grade_loop_score.
  apply inj_le.
  etransitivity; [apply right_le_matched|].
  rewrite <- (length_map QuizAnswer.question_id (filter (matched quiz) answers)).
  rewrite <- (length_map QuizQuestion.id (Quiz.questions quiz)).
  apply NoDup_incl_length.
  - clear - Hnd. induction answers as [|a rest IH]; cbn [filter map]; [constructor|].
    cbn [map] in Hnd. inversion Hnd as [|? ? Ha Hrest]; subst.
    destruct (matched quiz a); [|auto].
    cbn [map]. constructor; [|auto].
    intros Hin. apply Ha.
    apply in_map_iff in Hin. destruct Hin as (b & Hb & Hin).
    apply filter_In in Hin. rewrite <- Hb. apply in_map. tauto.
  - intros k Hin.
    apply in_map_iff in Hin. destruct Hin as (a & <- & Hin).
    apply filter_In in Hin. destruct Hin as [_ Hm].
    unfold matched in Hm.
    destruct (find_question quiz (QuizAnswer.question_id a)) as [q|] eqn:E;
      [|discriminate].
    apply find_question_some in E. destruct E as [Hq <-].
    now apply in_map.
Qed.

(** *** Percentage and verdict *)

Lemma percentage_of_no_questions score total :
  total <= 0 -> percentage_of score total = float_of_int 0.
Proof.
  intros H. unfold percentage_of, raw_percentage.
  now replace (0 <? total) with false by (symmetry; apply Z.ltb_ge; lia).
Qed.

Lemma percentage_of_questions score total :
  0 < total ->
  percentage_of score total
  = float_round (float_mul_int (int_truediv score total) 100) 2.
Proof.
  intros H. unfold percentage_of, raw_percentage.
  now replace (0 <? total) with true by (symmetry; apply Z.ltb_lt; lia).
Qed.

Lemma passed_of_no_questions score total :
  total <= 0 -> passed_of score total = false.
Proof.
  intros H. unfold passed_of, raw_percentage.
  now replace (0 <? total) with false by (symmetry; apply Z.ltb_ge; lia).
Qed.

Lemma passed_of_questions score total :
  0 < total ->
  passed_of score total
  = float_ge_int (float_mul_int (int_truediv score total) 100) 70.
Proof.
  intros H. unfold passed_of, raw_percentage.
  now replace (0 <? total) with true by (symmetry; apply Z.ltb_lt; lia).
Qed.

Lemma percentage_of_nonneg score total :
  0 <= score -> float_ge_int (percentage_of score total) 0 = true.
Proof.
  intros Hs. destruct (Z.le_gt_cases total 0) as [Ht|Ht].
  - now rewrite percentage_of_no_questions.
  - rewrite percentage_of_questions by assumption.
    apply is_nonneg_ge_0, float_round_2_nonneg, float_mul_int_100_nonneg.
    now apply int_truediv_nonneg.
Qed.

Lemma percentage_of_le_100 score total :
  0 <= score <= total -> float_le_int (percentage_of score total) 100 = true.
Proof.
  intros Hs. destruct (Z.le_gt_cases total 0) as [Ht|Ht].
  - now rewrite percentage_of_no_questions.
  - rewrite percentage_of_questions by assumption.
    apply float_round_2_le_100.
    + apply float_mul_int_100_valid, int_truediv_valid; lia.
    + apply float_mul_int_100_nonneg, int_truediv_nonneg; lia.
    + apply float_mul_int_100_le.
      * apply int_truediv_valid; lia.
      * apply int_truediv_nonneg; lia.
      * apply int_truediv_le_1; lia.
Qed.

Lemma passed_of_percentage score total :
  0 <= score -> passed_of score total = true ->
  float_ge_int (percentage_of score total) 70 = true.
Proof.
  intros Hs. destruct (Z.le_gt_cases total 0) as [Ht|Ht].
  - now rewrite passed_of_no_questions.
  - rewrite passed_of_questions, percentage_of_questions by assumption.
    apply float_round_2_ge_70.
    apply float_mul_int_100_valid, int_truediv_valid; lia.
Qed.


Lemma percentage_of_full total :
  0 < total ->
  percentage_of total total = float_of_int 100
  /\ passed_of total total = true.
Proof.
  intros Ht.
  rewrite percentage_of_questions, passed_of_questions by assumption.
  rewrite int_truediv_same by assumption.
  split; vm_compute; reflexivity.
Qed.

Lemma passed_of_zero total : passed_of 0 total = false.
Proof.
  destruct (Z.le_gt_cases total 0) as [Ht|Ht].
  - now apply passed_of_no_questions.
  - rewrite passed_of_questions by assumption.
    destruct total as [|p|p]; try lia. reflexivity.
Qed.

Lemma percentage_of_zero total : percentage_of 0 total = float_of_int 0.
Proof.
  destruct (Z.le_gt_cases total 0) as [Ht|Ht].
  - now apply percentage_of_no_questions.
  - rewrite percentage_of_questions by assumption.
    destruct total as [|p|p]; try lia. reflexivity.
Qed.

(** *** Every question answered right, once *)

Lemma filter_length_Permutation {A} (f : A -> bool) (l l' : list A) :
  Permutation l l' -> List.length (filter f l) = List.length (filter f l').
Proof.
  induction 1 as [|x l l' _ IH|x y l|l l' l'' _ IH1 _ IH2]; cbn [filter].
  - reflexivity.
  - destruct (f x); cbn [List.length]; congruence.
  - destruct (f x), (f y); reflexivity.
  - congruence.
Qed.

Lemma filter_all {A} (f : A -> bool) (l : list A) :
  (forall x, In x l -> f x = true) -> filter f l = l.
Proof.
  induction l as [|a l IH]; intros H; cbn [filter]; [reflexivity|].
  rewrite (H a (or_introl eq_refl)). f_equal. apply IH.
  intros x Hx. apply H. now right.
Qed.

Lemma right_answer_answered_right quiz q :
  NoDup (map QuizQuestion.id (Quiz.questions quiz)) ->
  In q (Quiz.questions quiz) ->
  answered_right quiz (right_answer q) = true.
Proof.
  intros Hnd Hin. unfold answered_right. cbn [right_answer QuizAnswer.question_id
    QuizAnswer.answer].
  rewrite (find_question_unique quiz q Hnd Hin). apply Z.eqb_refl.
Qed.

Lemma score_all_right quiz answers :
  NoDup (map QuizQuestion.id (Quiz.questions quiz)) ->
  Permutation answers (map right_answer (Quiz.questions quiz)) ->
  fst (grade_loop quiz answers) = Z.of_nat (List.length (Quiz.questions quiz)).
Proof.
  intros Hnd Hp. rewrite grade_loop_score. f_equal.
  rewrite (filter_length_Permutation _ _ _ Hp).
  rewrite filter_all; [apply length_map|].
  intros a Ha. apply in_map_iff in Ha. destruct Ha as (q & <- & Hq).
  now apply right_answer_answered_right.
Qed.

(** ** Properties of [submit_quiz] *)

(** The scenario of a three-question quiz answered right, wrong, right:
    2 of 3, 66.67 percent, not passed. *)
Example submit_quiz_two_of_three :
  exists r,
    submit_quiz quizzes_db 1
      {| QuizSubmission.answers :=
           [QuizAnswer.mk 1 1; QuizAnswer.mk 2 0; QuizAnswer.mk 3 2] |}
    = inr r
    /\ QuizResult.score r = 2 /\ QuizResult.total r = 3
    /\ QuizResult.percentage r = int_truediv 6667 100
    /\ QuizResult.passed r = false.
Proof. eexists. split; [reflexivity|]. now vm_compute. Qed.

(** Seven of ten is exactly 70.0 and passes. *)
Example submit_quiz_seven_of_ten :
  exists r,
    submit_quiz [bare_quiz 10] 1 (bare_submission 7) = inr r
    /\ QuizResult.percentage r = float_of_int 70
    /\ QuizResult.passed r = true.
Proof. eexists. split; [reflexivity|]. now vm_compute. Qed.

(** C1 as stated fails: four right answers to question 1 of the
    three-question quiz give score 4 of 3 and a percentage of 133.33,
    above 100. *)
Lemma percentage_above_100 :
  exists r,
    submit_quiz quizzes_db 1 repeated_submission = inr r
    /\ QuizResult.score r = 4 /\ QuizResult.total r = 3
    /\ QuizResult.percentage r = int_truediv 13333 100
    /\ float_le_int (QuizResult.percentage r) 100 = false.
Proof. eexists. split; [reflexivity|]. now vm_compute. Qed.

(** C1, amended: for every quiz of the store and every submission the
    percentage of the result is [round(score / total * 100, 2)] when the quiz
    has a question and 0 otherwise; it is never below 0; it is at most 100
    whenever the score does not exceed the total, which is the case when no
    question identifier is submitted twice. *)
Theorem percentage_bounds quizzes_db quiz_id quiz submission :
  find_quiz quizzes_db quiz_id = Some quiz ->
  exists r,
    submit_quiz quizzes_db quiz_id submission = inr r
    /\ QuizResult.total r = Z.of_nat (List.length (Quiz.questions quiz))
    /\ QuizResult.percentage r
       = (if 0 <? QuizResult.total r
          then float_round
                 (float_mul_int
                    (int_truediv (QuizResult.score r) (QuizResult.total r))
                    100) 2
          else float_of_int 0)
    /\ float_ge_int (QuizResult.percentage r) 0 = true
    /\ (QuizResult.score r <= QuizResult.total r ->
        float_le_int (QuizResult.percentage r) 100 = true)
    /\ (NoDup (map QuizAnswer.question_id (QuizSubmission.answers submission)) ->
        QuizResult.score r <= QuizResult.total r).
Proof.
  intros Hq. rewrite (submit_quiz_found _ _ _ _ Hq), grade_fields.
  eexists. split; [reflexivity|]. cbn [QuizResult.score QuizResult.total
    QuizResult.percentage].
  set (score := fst (grade_loop quiz (QuizSubmission.answers submission))).
  set (total := Z.of_nat (List.length (Quiz.questions quiz))).
  assert (Hs : 0 <= score) by apply grade_loop_score_nonneg.
  split; [reflexivity|]. split; [|split; [|split]].
  - destruct (Z.ltb_spec 0 total).
    + now apply percentage_of_questions.
    + now apply percentage_of_no_questions.
  - now apply percentage_of_nonneg.
  - intros Hle. apply percentage_of_le_100. lia.
  - apply score_le_total_nodup.
Qed.

Lemma percentage_bounds_witness :
  exists r,
    submit_quiz quizzes_db 2
      {| QuizSubmission.answers := [QuizAnswer.mk 1 1; QuizAnswer.mk 2 0] |}
    = inr r
    /\ QuizResult.total r = 2
    /\ QuizResult.percentage r
       = (if 0 <? QuizResult.total r
          then float_round
                 (float_mul_int
                    (int_truediv (QuizResult.score r) (QuizResult.total r))
                    100) 2
          else float_of_int 0)
    /\ float_ge_int (QuizResult.percentage r) 0 = true
    /\ (QuizResult.score r <= QuizResult.total r ->
        float_le_int (QuizResult.percentage r) 100 = true)
    /\ (NoDup (map QuizAnswer.question_id [QuizAnswer.mk 1 1; QuizAnswer.mk 2 0]) ->
        QuizResult.score r <= QuizResult.total r).
Proof.
  exact (percentage_bounds quizzes_db 2 quiz_2
           {| QuizSubmission.answers := [QuizAnswer.mk 1 1; QuizAnswer.mk 2 0] |}
           eq_refl).
Defined.

(** C2: every occurrence of an answer is graded on its own, whatever comes
    before or after it in the submission, the same question identifier
    included: it adds one to the score when it is right and always adds its
    own feedback entry, and the total stays the number of questions.  A right
    answer submitted [n] times scores [n].  On the three-question quiz with
    correct options 1, 1, 2 the submission [(q1, 1); (q1, 1)] gives score 2
    of total 3. *)
Theorem duplicates_graded_independently :
  (forall quizzes_db quiz_id quiz before a after q,
      find_quiz quizzes_db quiz_id = Some quiz ->
      find_question quiz (QuizAnswer.question_id a) = Some q ->
      exists r r0,
        submit_quiz quizzes_db quiz_id
          {| QuizSubmission.answers := before ++ a :: after |} = inr r
        /\ submit_quiz quizzes_db quiz_id
             {| QuizSubmission.answers := before ++ after |} = inr r0
        /\ QuizResult.score r
           = QuizResult.score r0
             + (if QuizAnswer.answer a =? QuizQuestion.correct_answer q
                then 1 else 0)
        /\ QuizResult.feedback r
           = snd (grade_loop quiz before)
             ++ [if QuizAnswer.answer a =? QuizQuestion.correct_answer q
                 then feedback_correct a q else feedback_incorrect a q]
             ++ snd (grade_loop quiz after)
        /\ QuizResult.feedback r0
           = snd (grade_loop quiz before) ++ snd (grade_loop quiz after)
        /\ QuizResult.total r = Z.of_nat (List.length (Quiz.questions quiz))
        /\ QuizResult.total r0 = QuizResult.total r)
  /\ (forall quizzes_db quiz_id quiz a q n,
      find_quiz quizzes_db quiz_id = Some quiz ->
      find_question quiz (QuizAnswer.question_id a) = Some q ->
      QuizAnswer.answer a = QuizQuestion.correct_answer q ->
      exists r,
        submit_quiz quizzes_db quiz_id
          {| QuizSubmission.answers := repeat a n |} = inr r
        /\ QuizResult.score r = Z.of_nat n
        /\ QuizResult.feedback r = repeat (feedback_correct a q) n
        /\ QuizResult.total r = Z.of_nat (List.length (Quiz.questions quiz)))
  /\ (exists r,
      submit_quiz quizzes_db 1
        {| QuizSubmission.answers := [QuizAnswer.mk 1 1; QuizAnswer.mk 1 1] |}
      = inr r
      /\ QuizResult.score r = 2 /\ QuizResult.total r = 3
      /\ List.length (QuizResult.feedback r) = 2%nat).
Proof.
  split; [|split].
  - intros db quiz_id quiz before a after q Hq Ha.
    rewrite !(submit_quiz_found _ _ _ _ Hq), !grade_fields.
    do 2 eexists. split; [reflexivity|]. split; [reflexivity|].
    cbn [QuizResult.score QuizResult.total QuizResult.feedback
         QuizSubmission.answers].
    rewrite !grade_loop_app, grade_loop_cons. cbn [fst snd].
    unfold grade_answer at 1 2. rewrite Ha.
    destruct (QuizAnswer.answer a =? QuizQuestion.correct_answer q);
      cbn [fst snd]; repeat split; try reflexivity; lia.
  - intros db quiz_id quiz a q n Hq Ha Hr.
    rewrite (submit_quiz_found _ _ _ _ Hq), grade_fields.
    eexists. split; [reflexivity|].
    cbn [QuizResult.score QuizResult.total QuizResult.feedback
         QuizSubmission.answers].
    split; [|split; [|reflexivity]].
    + induction n as [|n IH]; [reflexivity|].
      cbn [repeat]. rewrite grade_loop_cons. cbn [fst].
      rewrite IH, (grade_answer_correct _ _ _ Ha Hr). cbn [fst]. lia.
    + induction n as [|n IH]; [reflexivity|].
      cbn [repeat]. rewrite grade_loop_cons. cbn [snd].
      rewrite IH, (grade_answer_correct _ _ _ Ha Hr). reflexivity.
  - eexists. split; [reflexivity|]. now vm_compute.
Qed.

Lemma duplicates_graded_independently_witness :
  exists r,
    submit_quiz quizzes_db 1
      {| QuizSubmission.answers := repeat (QuizAnswer.mk 1 1) 2 |} = inr r
    /\ QuizResult.score r = 2
    /\ QuizResult.feedback r
       = repeat "Q1: ✓ Correct! A class is a blueprint or template that defines the structure and behavior for objects." 2
    /\ QuizResult.total r = 3.
Proof.
  exact (proj1 (proj2 duplicates_graded_independently)
           quizzes_db 1 quiz_1 (QuizAnswer.mk 1 1) _ 2%nat
           eq_refl eq_refl eq_refl).
Defined.

(** A store may hold a quiz long enough for rounding to matter: on a quiz
    of 2003 questions with 1402 right answers the unrounded percentage is
    69.995..., so [passed] is false, while the percentage of the result is
    rounded to exactly 70.0. *)
Lemma rounded_to_70_not_passed :
  exists r,
    submit_quiz [bare_quiz 2003] 1 (bare_submission 1402) = inr r
    /\ QuizResult.score r = 1402 /\ QuizResult.total r = 2003
    /\ QuizResult.percentage r = float_of_int 70
    /\ QuizResult.passed r = false
    /\ ~ (QuizResult.passed r = true
          <-> float_ge_int (QuizResult.percentage r) 70 = true).
Proof.
  exists (grade (bare_quiz 2003) (bare_submission 1402)).
  split; [reflexivity|].
  rewrite grade_fields.
  cbn [QuizResult.score QuizResult.total QuizResult.percentage
       QuizResult.passed].
  assert (Hs : fst (grade_loop (bare_quiz 2003)
                      (QuizSubmission.answers (bare_submission 1402))) = 1402).
  { rewrite grade_loop_score. vm_compute. reflexivity. }
  assert (Ht : Z.of_nat (List.length (Quiz.questions (bare_quiz 2003))) = 2003)
    by (vm_compute; reflexivity).
  assert (Hpct : percentage_of 1402 2003 = float_of_int 70)
    by (vm_compute; reflexivity).
  assert (Hp : passed_of 1402 2003 = false) by (vm_compute; reflexivity).
  rewrite Hs, Ht, Hpct, Hp.
  repeat split. intros [_ H]. discriminate H. reflexivity.
Qed.

(** X15: whatever the store holds, [passed] is true exactly when the quiz
    has a question and the percentage before it is rounded,
    [score / total * 100], is at least 70; whenever [passed] is true the
    rounded percentage of the same result is at least 70 as well. *)
Theorem passed_iff_unrounded_ge_70 quizzes_db quiz_id quiz submission :
  find_quiz quizzes_db quiz_id = Some quiz ->
  exists r,
    submit_quiz quizzes_db quiz_id submission = inr r
    /\ (QuizResult.passed r = true <->
        0 < QuizResult.total r
        /\ float_ge_int
             (float_mul_int
                (int_truediv (QuizResult.score r) (QuizResult.total r)) 100)
             70 = true)
    /\ (QuizResult.passed r = true ->
        float_ge_int (QuizResult.percentage r) 70 = true).
Proof.
  intros Hq. rewrite (submit_quiz_found _ _ _ _ Hq), grade_fields.
  eexists. split; [reflexivity|].
  cbn [QuizResult.score QuizResult.total QuizResult.percentage
       QuizResult.passed].
  set (score := fst (grade_loop quiz (QuizSubmission.answers submission))).
  set (total := Z.of_nat (List.length (Quiz.questions quiz))).
  assert (Hs : 0 <= score) by apply grade_loop_score_nonneg.
  split.
  - destruct (Z.le_gt_cases total 0) as [Ht|Ht].
    + rewrite passed_of_no_questions by assumption.
      split; [discriminate|]. intros [H _]. lia.
    + rewrite passed_of_questions by assumption. tauto.
  - now apply passed_of_percentage.
Qed.

Lemma passed_iff_unrounded_ge_70_witness :
  exists r,
    submit_quiz quizzes_db 1
      {| QuizSubmission.answers :=
           [QuizAnswer.mk 1 1; QuizAnswer.mk 2 1; QuizAnswer.mk 3 2] |}
    = inr r
    /\ (QuizResult.passed r = true <->
        0 < QuizResult.total r
        /\ float_ge_int
             (float_mul_int
                (int_truediv (QuizResult.score r) (QuizResult.total r)) 100)
             70 = true)
    /\ (QuizResult.passed r = true ->
        float_ge_int (QuizResult.percentage r) 70 = true).
Proof.
  exact (passed_iff_unrounded_ge_70 quizzes_db 1 quiz_1
           {| QuizSubmission.answers :=
                [QuizAnswer.mk 1 1; QuizAnswer.mk 2 1; QuizAnswer.mk 3 2] |}
           eq_refl).
Defined.


Lemma quizzes_db_ids_unique : NoDup (map Quiz.id quizzes_db).
Proof. repeat constructor; cbn; intuition discriminate. Qed.



(** C4: for every quiz of the store and every submission the total of the
    result is the number of questions of the quiz, whatever the number of
    submitted answers. *)
Theorem total_is_question_count quizzes_db quiz_id quiz submission :
  find_quiz quizzes_db quiz_id = Some quiz ->
  exists r,
    submit_quiz quizzes_db quiz_id submission = inr r
    /\ QuizResult.total r = Z.of_nat (List.length (Quiz.questions quiz)).
Proof.
  intros Hq. rewrite (submit_quiz_found _ _ _ _ Hq), grade_fields.
  eexists. split; reflexivity.
Qed.

Lemma total_is_question_count_witness :
  exists r,
    submit_quiz quizzes_db 1 repeated_submission = inr r
    /\ QuizResult.total r = 3.
Proof.
  exact (total_is_question_count quizzes_db 1 quiz_1 repeated_submission
           eq_refl).
Defined.

(** C5: for a quiz identifier that no quiz of the store carries,
    [submit_quiz] raises the 404 "Quiz not found" exception whatever the
    submission, and so returns no result: the grading code is never
    reached. *)
Theorem unknown_quiz_not_found quizzes_db quiz_id submission :
  (forall q, In q quizzes_db -> Quiz.id q <> quiz_id) ->
  submit_quiz quizzes_db quiz_id submission
  = inl {| status_code := 404; detail := "Quiz not found" |}
  /\ forall r, submit_quiz quizzes_db quiz_id submission <> inr r.
Proof.
  intros H. apply find_quiz_absent in H.
  unfold submit_quiz. rewrite H. split; [reflexivity|discriminate].
Qed.

Lemma unknown_quiz_not_found_witness :
  submit_quiz quizzes_db 3 repeated_submission
  = inl {| status_code := 404; detail := "Quiz not found" |}
  /\ forall r, submit_quiz quizzes_db 3 repeated_submission <> inr r.
Proof.
  apply (unknown_quiz_not_found quizzes_db 3 repeated_submission).
  intros q [<-|[<-|[]]]; discriminate.
Defined.

(** C6: an answer whose question identifier matches no question of the quiz
    is skipped: the submission is graded to the very result it has without
    that answer, so the answer changes neither score nor feedback and raises
    nothing. *)
Theorem unmatched_answer_skipped quizzes_db quiz_id quiz before a after :
  find_quiz quizzes_db quiz_id = Some quiz ->
  (forall q, In q (Quiz.questions quiz) ->
             QuizQuestion.id q <> QuizAnswer.question_id a) ->
  exists r,
    submit_quiz quizzes_db quiz_id
      {| QuizSubmission.answers := before ++ a :: after |} = inr r
    /\ submit_quiz quizzes_db quiz_id
         {| QuizSubmission.answers := before ++ after |} = inr r.
Proof.
  intros Hq Ha. apply find_question_none in Ha.
  rewrite !(submit_quiz_found _ _ _ _ Hq), !grade_fields.
  eexists. split; [reflexivity|].
  cbn [QuizSubmission.answers].
  rewrite !grade_loop_app, grade_loop_cons.
  rewrite (grade_answer_unmatched _ _ Ha). cbn [fst snd].
  now rewrite Z.add_0_l.
Qed.

Lemma unmatched_answer_skipped_witness :
  exists r,
    submit_quiz quizzes_db 2
      {| QuizSubmission.answers :=
           [QuizAnswer.mk 1 1] ++ QuizAnswer.mk 3 0 :: [QuizAnswer.mk 2 2] |}
    = inr r
    /\ submit_quiz quizzes_db 2
         {| QuizSubmission.answers :=
              [QuizAnswer.mk 1 1] ++ [QuizAnswer.mk 2 2] |}
       = inr r.
Proof.
  apply (unmatched_answer_skipped quizzes_db 2 quiz_2
           [QuizAnswer.mk 1 1] (QuizAnswer.mk 3 0) [QuizAnswer.mk 2 2] eq_refl).
  intros q [<-|[<-|[]]]; discriminate.
Defined.

(** A quiz without questions has unique identifiers, and the empty
    submission answers each of its questions right once; the guard on
    [total > 0] then gives percentage 0 and passed = false. *)
Lemma no_questions_not_passed :
  find_quiz [bare_quiz 0] 1 = Some (bare_quiz 0)
  /\ NoDup (map QuizQuestion.id (Quiz.questions (bare_quiz 0)))
  /\ Permutation (QuizSubmission.answers (bare_submission 0))
       (map right_answer (Quiz.questions (bare_quiz 0)))
  /\ exists r,
       submit_quiz [bare_quiz 0] 1 (bare_submission 0) = inr r
       /\ QuizResult.score r = 0 /\ QuizResult.total r = 0
       /\ QuizResult.percentage r = float_of_int 0
       /\ QuizResult.percentage r <> float_of_int 100
       /\ QuizResult.passed r = false.
Proof.
  split; [reflexivity|]. split; [constructor|]. split; [constructor|].
  eexists. split; [reflexivity|].
  repeat split; try reflexivity. vm_compute. discriminate.
Qed.

(** X16: whatever the store holds, for a quiz that has at least one question
    and whose question identifiers are unique, a submission with exactly one
    answer per question, each the correct option, in any order, gives
    score = total = the number of questions, percentage 100.0 and
    passed = true. *)
Theorem all_right_full_marks quizzes_db quiz_id quiz submission :
  find_quiz quizzes_db quiz_id = Some quiz ->
  Quiz.questions quiz <> [] ->
  NoDup (map QuizQuestion.id (Quiz.questions quiz)) ->
  Permutation (QuizSubmission.answers submission)
    (map right_answer (Quiz.questions quiz)) ->
  exists r,
    submit_quiz quizzes_db quiz_id submission = inr r
    /\ QuizResult.score r = Z.of_nat (List.length (Quiz.questions quiz))
    /\ QuizResult.total r = Z.of_nat (List.length (Quiz.questions quiz))
    /\ QuizResult.percentage r = float_of_int 100
    /\ QuizResult.passed r = true.
Proof.
  intros Hq Hne Hnd Hp.
  rewrite (submit_quiz_found _ _ _ _ Hq), grade_fields.
  eexists. split; [reflexivity|].
  cbn [QuizResult.score QuizResult.total QuizResult.percentage
       QuizResult.passed].
  rewrite (score_all_right _ _ Hnd Hp).
  assert (Ht : 0 < Z.of_nat (List.length (Quiz.questions quiz))).
  { destruct (Quiz.questions quiz); [contradiction|]. cbn [List.length]. lia. }
  destruct (percentage_of_full _ Ht) as [H100 Hpass].
  auto.
Qed.

Lemma all_right_full_marks_witness :
  exists r,
    submit_quiz quizzes_db 1
      {| QuizSubmission.answers :=
           [QuizAnswer.mk 1 1; QuizAnswer.mk 2 1; QuizAnswer.mk 3 2] |}
    = inr r
    /\ QuizResult.score r = 3
    /\ QuizResult.total r = 3
    /\ QuizResult.percentage r = float_of_int 100
    /\ QuizResult.passed r = true.
Proof.
  apply (all_right_full_marks quizzes_db 1 quiz_1
           {| QuizSubmission.answers :=
                [QuizAnswer.mk 1 1; QuizAnswer.mk 2 1; QuizAnswer.mk 3 2] |}
           eq_refl).
  - discriminate.
  - repeat constructor; cbn; intuition discriminate.
  - apply Permutation_refl.
Defined.

(** C7: for every quiz in the store, the two quizzes of [quizzes_db], whose
    question identifiers are unique within the quiz, submitting exactly one
    answer per question, each equal to the question's correct option index,
    in any order, yields score = total = the quiz's question count,
    percentage = 100.0 and passed = true. *)
Theorem shipped_quiz_all_right quiz submission :
  In quiz quizzes_db ->
  NoDup (map QuizQuestion.id (Quiz.questions quiz)) ->
  Permutation (QuizSubmission.answers submission)
    (map right_answer (Quiz.questions quiz)) ->
  exists r,
    submit_quiz quizzes_db (Quiz.id quiz) submission = inr r
    /\ QuizResult.score r = QuizResult.total r
    /\ QuizResult.total r = Z.of_nat (List.length (Quiz.questions quiz))
    /\ QuizResult.percentage r = float_of_int 100
    /\ QuizResult.passed r = true.
Proof.
  intros Hin Hnd Hp.
  pose proof (find_quiz_unique _ _ quizzes_db_ids_unique Hin) as Hq.
  rewrite (submit_quiz_found _ _ _ _ Hq), grade_fields.
  eexists. split; [reflexivity|].
  cbn [QuizResult.score QuizResult.total QuizResult.percentage
       QuizResult.passed].
  rewrite (score_all_right _ _ Hnd Hp).
  assert (Ht : 0 < Z.of_nat (List.length (Quiz.questions quiz))).
  { destruct Hin as [<-|[<-|[]]]; cbn; lia. }
  destruct (percentage_of_full _ Ht) as [H100 Hpass].
  auto.
Qed.

Lemma shipped_quiz_all_right_witness :
  exists r,
    submit_quiz quizzes_db (Quiz.id quiz_2)
      {| QuizSubmission.answers := [QuizAnswer.mk 1 1; QuizAnswer.mk 2 2] |}
    = inr r
    /\ QuizResult.score r = QuizResult.total r
    /\ QuizResult.total r = 2
    /\ QuizResult.percentage r = float_of_int 100
    /\ QuizResult.passed r = true.
Proof.
  apply (shipped_quiz_all_right quiz_2
           {| QuizSubmission.answers :=
                [QuizAnswer.mk 1 1; QuizAnswer.mk 2 2] |}).
  - right. left. reflexivity.
  - repeat constructor; cbn; intuition discriminate.
  - apply Permutation_refl.
Defined.

(** C8: for every quiz of the store the empty submission gives score 0, no
    feedback, the number of questions as total, and passed = false (the
    percentage is 0). *)
Theorem empty_submission_result quizzes_db quiz_id quiz :
  find_quiz quizzes_db quiz_id = Some quiz ->
  exists r,
    submit_quiz quizzes_db quiz_id {| QuizSubmission.answers := [] |} = inr r
    /\ QuizResult.score r = 0
    /\ QuizResult.feedback r = []
    /\ QuizResult.total r = Z.of_nat (List.length (Quiz.questions quiz))
    /\ QuizResult.passed r = false
    /\ QuizResult.percentage r = float_of_int 0.
Proof.
  intros Hq. rewrite (submit_quiz_found _ _ _ _ Hq), grade_fields.
  eexists. split; [reflexivity|].
  cbn [QuizResult.score QuizResult.total QuizResult.percentage
       QuizResult.passed QuizResult.feedback QuizSubmission.answers].
  rewrite grade_loop_nil. cbn [fst snd].
  repeat split.
  - apply passed_of_zero.
  - apply percentage_of_zero.
Qed.

Lemma empty_submission_result_witness :
  exists r,
    submit_quiz quizzes_db 2 {| QuizSubmission.answers := [] |} = inr r
    /\ QuizResult.score r = 0
    /\ QuizResult.feedback r = []
    /\ QuizResult.total r = 2
    /\ QuizResult.passed r = false
    /\ QuizResult.percentage r = float_of_int 0.
Proof.
  exact (empty_submission_result quizzes_db 2 quiz_2 eq_refl).
Defined.

(** C10: the feedback has one entry per submitted answer that reaches a
    question of the quiz, duplicates counted; the score is at most the
    length of the feedback, which is at most the number of submitted
    answers. *)
Theorem feedback_and_score_bounds quizzes_db quiz_id quiz submission :
  find_quiz quizzes_db quiz_id = Some quiz ->
  exists r,
    submit_quiz quizzes_db quiz_id submission = inr r
    /\ List.length (QuizResult.feedback r)
       = List.length
           (filter (matched quiz) (QuizSubmission.answers submission))
    /\ 0 <= QuizResult.score r <= Z.of_nat (List.length (QuizResult.feedback r))
    /\ (List.length (QuizResult.feedback r)
        <= List.length (QuizSubmission.answers submission))%nat.
Proof.
  intros Hq. rewrite (submit_quiz_found _ _ _ _ Hq), grade_fields.
  eexists. split; [reflexivity|].
  cbn [QuizResult.score QuizResult.feedback].
  rewrite grade_loop_feedback_length, grade_loop_score.
  split; [reflexivity|]. split.
  - pose proof (right_le_matched quiz (QuizSubmission.answers submission)). lia.
  - apply filter_length_le.
Qed.

Lemma feedback_and_score_bounds_witness :
  exists r,
    submit_quiz quizzes_db 1
      {| QuizSubmission.answers :=
           [QuizAnswer.mk 1 1; QuizAnswer.mk 9 0; QuizAnswer.mk 1 0] |}
    = inr r
    /\ List.length (QuizResult.feedback r) = 2%nat
    /\ 0 <= QuizResult.score r <= Z.of_nat (List.length (QuizResult.feedback r))
    /\ (List.length (QuizResult.feedback r) <= 3)%nat.
Proof.
  exact (feedback_and_score_bounds quizzes_db 1 quiz_1
           {| QuizSubmission.answers :=
                [QuizAnswer.mk 1 1; QuizAnswer.mk 9 0; QuizAnswer.mk 1 0] |}
           eq_refl).
Defined.

(** ** Properties of [search_lessons] *)

Lemma prefix_occurs (needle hay : string) :
  prefix needle hay = true <-> exists after, hay = (needle ++ after)%string.
Proof.
  revert hay. induction needle as [|c needle IH]; intros hay.
  - split; [intros _; now exists hay | intros _; now destruct hay].
  - destruct hay as [|d hay]; cbn [prefix].
    + split; [discriminate | intros [after H]; discriminate H].
    + destruct (ascii_dec c d) as [->|Hne].
      * rewrite IH. split; intros [after H]; exists after.
        -- cbn. now rewrite H.
        -- cbn in H. now inversion H.
      * split; [discriminate|]. intros [after H]. cbn in H.
        congruence.
Qed.

Lemma append_assoc (a b c : string) :
  ((a ++ b) ++ c = a ++ b ++ c)%string.
Proof. induction a as [|x a IH]; cbn; [reflexivity | now rewrite IH]. Qed.

(** [needle in hay] is true exactly when [needle] occurs in [hay]. *)
Lemma str_in_occurs (needle hay : string) :
  str_in needle hay = true <-> occurs_in needle hay.
Proof.
  unfold occurs_in.
  induction hay as [|d hay IH]; cbn [str_in].
  - destruct (prefix needle "") eqn:Hp.
    + split; [intros _|reflexivity].
      apply prefix_occurs in Hp. destruct Hp as [after H].
      now exists ""%string, after.
    + split; [discriminate|]. intros (before & after & H).
      destruct before; [|discriminate H]. cbn in H.
      assert (prefix needle "" = true) by (apply prefix_occurs; eauto).
      congruence.
  - destruct (prefix needle (String d hay)) eqn:Hp.
    + split; [intros _|reflexivity].
      apply prefix_occurs in Hp. destruct Hp as [after H].
      now exists ""%string, after.
    + rewrite IH. split.
      * intros (before & after & ->). now exists (String d before), after.
      * intros (before & after & H). destruct before as [|b before].
        -- cbn in H.
           assert (prefix needle (String d hay) = true)
             by (apply prefix_occurs; eauto).
           congruence.
        -- cbn in H. inversion H. eauto.
Qed.

Section SearchProperties.

Variable lower : string -> string.

Lemma search_scan_filter kw lessons :
  search_scan lower kw lessons
  = map (search_entry lower kw) (filter (lesson_matches lower kw) lessons).
Proof.
  induction lessons as [|l rest IH]; cbn [search_scan filter map];
    [reflexivity|].
  destruct (lesson_matches lower kw l); cbn [map]; now rewrite IH.
Qed.

Lemma concepts_matching_filter kw concepts :
  concepts_matching lower kw concepts
  = filter (fun c => str_in kw (lower c)) concepts.
Proof.
  induction concepts as [|c rest IH]; cbn [concepts_matching filter];
    [reflexivity|].
  destruct (str_in kw (lower c)); now rewrite IH.
Qed.

Lemma lesson_matches_occurs kw l :
  lesson_matches lower kw l = true <->
  occurs_in kw (lower (Lesson.title l))
  \/ occurs_in kw (lower (Lesson.content l)).
Proof.
  unfold lesson_matches. now rewrite orb_true_iff, !str_in_occurs.
Qed.

(** C9: the results of a keyword search are, in the order of the table, the
    entries of exactly the lessons whose lower-cased title or lower-cased
    content contains the lower-cased keyword; a lesson whose title and
    content do not contain it leaves the results as they are without it,
    whatever its key concepts; and the [matching_concepts] of an entry are
    the key concepts, in order, whose lower-cased form contains the
    lower-cased keyword. *)
Theorem search_lessons_by_title_or_content lessons_db keyword :
  let kw := lower keyword in
  search_lessons lower lessons_db keyword
  = map (search_entry lower kw) (filter (lesson_matches lower kw) lessons_db)
  /\ (forall l,
        lesson_matches lower kw l = true <->
        occurs_in kw (lower (Lesson.title l))
        \/ occurs_in kw (lower (Lesson.content l)))
  /\ (forall l,
        In l lessons_db ->
        occurs_in kw (lower (Lesson.title l))
        \/ occurs_in kw (lower (Lesson.content l)) ->
        In (search_entry lower kw l) (search_lessons lower lessons_db keyword))
  /\ (forall r,
        In r (search_lessons lower lessons_db keyword) ->
        exists l,
          In l lessons_db /\ r = search_entry lower kw l
          /\ (occurs_in kw (lower (Lesson.title l))
              \/ occurs_in kw (lower (Lesson.content l))))
  /\ (forall before l after,
        lessons_db = before ++ l :: after ->
        ~ occurs_in kw (lower (Lesson.title l)) ->
        ~ occurs_in kw (lower (Lesson.content l)) ->
        search_lessons lower lessons_db keyword
        = search_lessons lower (before ++ after) keyword)
  /\ (forall l,
        SearchResult.id (search_entry lower kw l) = Lesson.id l
        /\ SearchResult.title (search_entry lower kw l) = Lesson.title l
        /\ SearchResult.difficulty (search_entry lower kw l)
           = Lesson.difficulty l
        /\ SearchResult.matching_concepts (search_entry lower kw l)
           = filter (fun c => str_in kw (lower c)) (Lesson.key_concepts l)
        /\ forall c,
             In c (SearchResult.matching_concepts (search_entry lower kw l)) <->
             In c (Lesson.key_concepts l) /\ occurs_in kw (lower c)).
Proof.
  intros kw. unfold search_lessons. fold kw.
  split; [apply search_scan_filter|].
  split; [apply lesson_matches_occurs|].
  split; [|split; [|split]].
  - intros l Hin Hocc. rewrite search_scan_filter.
    apply in_map, filter_In. split; [assumption|].
    now apply lesson_matches_occurs.
  - intros r Hin. rewrite search_scan_filter in Hin.
    apply in_map_iff in Hin. destruct Hin as (l & <- & Hl).
    apply filter_In in Hl. destruct Hl as [Hl Hm].
    exists l. split; [assumption|]. split; [reflexivity|].
    now apply lesson_matches_occurs.
  - intros before l after -> Ht Hc.
    rewrite !search_scan_filter, !filter_app. cbn [filter].
    replace (lesson_matches lower kw l) with false; [reflexivity|].
    symmetry. apply not_true_is_false. intros Hm.
    apply lesson_matches_occurs in Hm. tauto.
  - intros l. cbn [search_entry SearchResult.id SearchResult.title
      SearchResult.difficulty SearchResult.matching_concepts].
    rewrite concepts_matching_filter.
    split; [reflexivity|]. split; [reflexivity|]. split; [reflexivity|].
    split; [reflexivity|].
    intros c. rewrite filter_In, str_in_occurs. reflexivity.
Qed.

End SearchProperties.

(** "Constructor" is a key concept of the first lesson and occurs neither in
    its title nor in its content: the lesson is not found, and no other
    lesson is. *)
Example search_constructor :
  In "Constructor"%string (Lesson.key_concepts lesson_1)
  /\ search_lessons ascii_lower lessons_db "Constructor" = [].
Proof. split; [cbn; tauto | vm_compute; reflexivity]. Qed.

(** "INTERFACE" is found whatever its case, with the concepts that match. *)
Example search_interface :
  map (fun r => (SearchResult.id r, SearchResult.matching_concepts r))
      (search_lessons ascii_lower lessons_db "INTERFACE")
  = [(3, []); (4, ["Interface"%string]); (5, ["Interface"%string])].
Proof. vm_compute. reflexivity. Qed.

(** ** The pass mark in whole numbers *)

Lemma seven_tenths_quotient : int_truediv 7 10 = seven_tenths.
Proof. vm_compute. reflexivity. Qed.

(** From the nearest double to 0.7 upwards, a hundred times is 70 or more. *)
Lemma float_mul_int_100_ge_70_from x :
  valid_binary prec emax x = true ->
  SFleb seven_tenths x = true ->
  float_ge_int (float_mul_int x 100) 70 = true.
Proof.
  unfold seven_tenths.
  destruct x as [s|[|]| |[|] m e]; try discriminate; intros Hv Hge;
    try reflexivity.
  destruct (valid_finite_parts false m e Hv) as [Hc He].
  apply SFleb_finite_pos_inv in Hge.
  unfold float_ge_int.
  rewrite float_mul_int_100_finite.
  change (float_of_int 70) with (S754_finite false 4925812092436480 (-46)).
  destruct (Z.le_gt_cases e 0) as [He0|He0];
    [|apply binary_round_aux_above; [lia|lia|reflexivity]].
  pose proof (pow2_pos (- e) ltac:(lia)) as Hp.
  destruct (Z.eq_dec e (-53)) as [->|Hne].
  - destruct (Z.eq_dec (Zpos m) 6305039478318694) as [Hm|Hm].
    + injection Hm as ->. vm_compute. reflexivity.
    + apply binary_round_aux_ge; [lia|lia|reflexivity|].
      rewrite Pos2Z.inj_mul.
      change (-46 - (-53 + -46)) with 53.
      change (2 ^ 53) with 9007199254740992. lia.
  - assert (Hd : Zdigits2 (Zpos m) = 53) by lia.
    pose proof (Zdigits2_bounds (Zpos m) ltac:(lia)) as [Hlo _].
    rewrite Hd in Hlo. change (53 - 1) with 52 in Hlo.
    assert (2 ^ (- e) <= 2 ^ 52) by (apply Z.pow_le_mono_r; lia).
    apply binary_round_aux_ge; [lia|lia|reflexivity|].
    replace (-46 - (e + -46)) with (- e) by lia.
    rewrite Pos2Z.inj_mul. nia.
Qed.

Lemma SFleb_below_70 y :
  SFleb y below_70 = true -> float_ge_int y 70 = false.
Proof.
  unfold below_70, float_ge_int.
  change (float_of_int 70) with (S754_finite false 4925812092436480 (-46)).
  destruct y as [s|[|]| |[|] m e]; try discriminate; try reflexivity.
  intros H. apply SFleb_finite_pos_inv in H.
  unfold SFleb, SFcompare.
  destruct (Z.compare_spec (-46) e) as [Heq|Hlt|Hgt];
    [|exfalso; lia|reflexivity].
  change (Pos.compare_cont Eq 4925812092436480 m)
    with (Zpos 4925812092436480 ?= Zpos m).
  destruct (Z.compare_spec (Zpos 4925812092436480) (Zpos m));
    [exfalso; lia|exfalso; lia|reflexivity].
Qed.

(** Up to the double before the nearest one to 0.7, a hundred times stays
    below 70. *)
Lemma float_mul_int_100_lt_70 x :
  valid_binary prec emax x = true -> is_nonneg x = true ->
  SFleb x below_seven_tenths = true ->
  float_ge_int (float_mul_int x 100) 70 = false.
Proof.
  unfold below_seven_tenths.
  destruct x as [s|[|]| |[|] m e]; try discriminate; intros Hv _ Hle;
    try reflexivity.
  destruct (valid_finite_parts false m e Hv) as [Hc He].
  apply SFleb_finite_pos_inv in Hle.
  apply SFleb_below_70. unfold below_70.
  rewrite float_mul_int_100_finite.
  pose proof (pow2_pos (- e) ltac:(lia)) as Hp.
  apply binary_round_aux_le; [lia|lia|reflexivity|].
  replace (-46 - (e + -46)) with (- e) by lia.
  rewrite Pos2Z.inj_mul. left.
  destruct Hle as [Hlt|[-> Hm]].
  - assert (Hd : Zdigits2 (Zpos m) <= 53) by lia.
    apply Zdigits2_le_iff in Hd; [|lia|lia].
    assert (2 ^ 54 <= 2 ^ (- e)) by (apply Z.pow_le_mono_r; lia).
    change (2 ^ 53) with 9007199254740992 in Hd.
    change (2 ^ 54) with 18014398509481984 in H.
    nia.
  - change (2 ^ (- -53)) with 9007199254740992. lia.
Qed.

(** For a quiz of fewer than 2^49 questions the float test agrees with the
    whole-number one. *)
Lemma passed_of_exact score total :
  0 <= score -> 0 < total < 2 ^ 49 ->
  (passed_of score total = true <-> 7 * total <= 10 * score).
Proof.
  intros Hs [Ht Hbound]. change (2 ^ 49) with 562949953421312 in Hbound.
  rewrite passed_of_questions by assumption.
  destruct (Z.le_gt_cases (7 * total) (10 * score)) as [Hge|Hlt].
  - split; [auto|intros _].
    apply float_mul_int_100_ge_70_from; [apply int_truediv_valid; lia|].
    destruct score as [|a|a], total as [|b|b]; try lia.
    rewrite int_truediv_pos. unfold seven_tenths.
    apply div_pos_ge; [reflexivity|lia|].
    change (2 ^ (- -53)) with 9007199254740992. lia.
  - split; [|lia]. intros Hp. exfalso.
    rewrite float_mul_int_100_lt_70 in Hp; [discriminate| | |].
    + apply int_truediv_valid; lia.
    + apply int_truediv_nonneg; lia.
    + destruct score as [|a|a], total as [|b|b]; try lia; [reflexivity|].
      rewrite int_truediv_pos. unfold below_seven_tenths.
      apply div_pos_le; [reflexivity|lia|].
      change (2 ^ (- -53)) with 9007199254740992. lia.
Qed.

(** X14: for a quiz of fewer than 2^49 questions, [passed] is true exactly
    when the quiz has a question and 10 * score >= 7 * total: the float
    computation makes no mistake about the pass mark. *)
Theorem pass_mark_exact quizzes_db quiz_id quiz submission :
  find_quiz quizzes_db quiz_id = Some quiz ->
  Z.of_nat (List.length (Quiz.questions quiz)) < 2 ^ 49 ->
  exists r,
    submit_quiz quizzes_db quiz_id submission = inr r
    /\ (QuizResult.passed r = true <->
        0 < QuizResult.total r
        /\ 7 * QuizResult.total r <= 10 * QuizResult.score r).
Proof.
  intros Hq Hb. rewrite (submit_quiz_found _ _ _ _ Hq), grade_fields.
  eexists. split; [reflexivity|].
  cbn [QuizResult.score QuizResult.total QuizResult.passed].
  set (score := fst (grade_loop quiz (QuizSubmission.answers submission))).
  assert (Hs : 0 <= score) by apply grade_loop_score_nonneg.
  set (total := Z.of_nat (List.length (Quiz.questions quiz))) in *.
  destruct (Z.le_gt_cases total 0) as [Ht|Ht].
  - rewrite passed_of_no_questions by assumption.
    split; [discriminate|]. intros [H _]. lia.
  - rewrite passed_of_exact by lia. tauto.
Qed.

Lemma pass_mark_exact_witness :
  exists r,
    submit_quiz [bare_quiz 10] 1 (bare_submission 7) = inr r
    /\ (QuizResult.passed r = true <->
        0 < QuizResult.total r
        /\ 7 * QuizResult.total r <= 10 * QuizResult.score r).
Proof.
  apply (pass_mark_exact [bare_quiz 10] 1 (bare_quiz 10) (bare_submission 7)
           eq_refl).
  vm_compute. reflexivity.
Defined.

(** ** Lookups by identifier *)

(** [find] returns the first element that passes the test. *)
Lemma find_first {A} (f : A -> bool) (l : list A) (x : A) :
  find f l = Some x <->
  exists before after,
    l = before ++ x :: after /\ f x = true
    /\ forall y, In y before -> f y = false.
Proof.
  induction l as [|a l IH]; cbn [find].
  - split; [discriminate|]. intros (before & after & H & _).
    destruct before; discriminate H.
  - destruct (f a) eqn:Ha.
    + split.
      * intros [= ->]. exists [], l. repeat split; [assumption|contradiction].
      * intros (before & after & H & Hx & Hb).
        destruct before as [|b before]; cbn in H; injection H as Hab Hl.
        -- congruence.
        -- specialize (Hb b (or_introl eq_refl)). congruence.
    + rewrite IH. split.
      * intros (before & after & -> & Hx & Hb).
        exists (a :: before), after. repeat split; [assumption|].
        intros y [<-|Hy]; auto.
      * intros (before & after & H & Hx & Hb).
        destruct before as [|b before]; cbn in H; injection H as Hab Hl.
        -- congruence.
        -- exists before, after. repeat split; [assumption|assumption|].
           intros y Hy. apply Hb. now right.
Qed.

Lemma find_app_first {A} (f : A -> bool) (l1 l2 : list A) :
  find f (l1 ++ l2)
  = match find f l1 with
    | Some x => Some x
    | None => find f l2
    end.
Proof.
  induction l1 as [|a l1 IH]; cbn [app find]; [reflexivity|].
  now destruct (f a).
Qed.

(** X1: [get_lesson] raises 404 "Lesson not found" exactly when no lesson of
    the table carries the identifier; otherwise it returns the first lesson
    of the table that carries it. *)
Theorem get_lesson_first_match lessons_db lesson_id :
  ((forall l, In l lessons_db -> Lesson.id l <> lesson_id) <->
   get_lesson lessons_db lesson_id
   = inl {| status_code := 404; detail := "Lesson not found" |})
  /\ (forall l,
        get_lesson lessons_db lesson_id = inr l <->
        exists before after,
          lessons_db = before ++ l :: after
          /\ Lesson.id l = lesson_id
          /\ forall x, In x before -> Lesson.id x <> lesson_id).
Proof.
  unfold get_lesson. split.
  - destruct (find _ lessons_db) as [l|] eqn:E.
    + split; [|discriminate]. intros H.
      apply find_some in E. destruct E as [Hin Heq].
      apply Z.eqb_eq in Heq. now apply H in Hin.
    + split; [reflexivity|]. intros _ l Hin Heq.
      apply (find_none _ _ E) in Hin. apply Z.eqb_neq in Hin. contradiction.
  - intros l.
    assert (Hf := find_first (fun x => Lesson.id x =? lesson_id) lessons_db l).
    destruct (find _ lessons_db) as [l0|].
    + split.
      * intros [= ->]. destruct (proj1 Hf eq_refl) as (b & a & H1 & H2 & H3).
        exists b, a. repeat split; [assumption|now apply Z.eqb_eq|].
        intros x Hx. apply Z.eqb_neq. auto.
      * intros (b & a & H1 & H2 & H3). f_equal.
        assert (Some l0 = Some l) as [= ->]; [|reflexivity].
        apply Hf. exists b, a. repeat split; [assumption|now apply Z.eqb_eq|].
        intros y Hy. apply Z.eqb_neq. auto.
    + split; [discriminate|].
      intros (b & a & H1 & H2 & H3). exfalso.
      assert (None = Some l); [|discriminate].
      apply Hf. exists b, a. repeat split; [assumption|now apply Z.eqb_eq|].
      intros y Hy. apply Z.eqb_neq. auto.
Qed.

Lemma get_lesson_unique lessons_db lesson :
  NoDup (map Lesson.id lessons_db) -> In lesson lessons_db ->
  get_lesson lessons_db (Lesson.id lesson) = inr lesson.
Proof.
  unfold get_lesson.
  induction lessons_db as [|l rest IH]; [contradiction|].
  cbn [map find]. intros Hnd [->|Hin].
  - now rewrite Z.eqb_refl.
  - inversion Hnd as [|? ? Hl Hrest]; subst.
    destruct (Z.eqb_spec (Lesson.id l) (Lesson.id lesson)) as [Heq|_]; [|auto].
    exfalso. apply Hl. rewrite Heq. now apply in_map.
Qed.

(** X2: when the lesson identifiers of the table are unique, every lesson of
    the table is what [get_lesson] returns for its identifier, and no other
    identifier returns it. *)
Theorem get_lesson_round_trip lessons_db lesson lesson_id :
  NoDup (map Lesson.id lessons_db) -> In lesson lessons_db ->
  (get_lesson lessons_db lesson_id = inr lesson <->
   lesson_id = Lesson.id lesson).
Proof.
  intros Hnd Hin. split.
  - unfold get_lesson. intros H.
    destruct (find _ lessons_db) as [l|] eqn:E; [|discriminate].
    injection H as ->. apply find_some in E. destruct E as [_ E].
    apply Z.eqb_eq in E. now symmetry.
  - intros ->. now apply get_lesson_unique.
Qed.

Lemma lessons_db_ids : map Lesson.id lessons_db = [1; 2; 3; 4; 5].
Proof. reflexivity. Qed.

Lemma NoDup_1_to_5 : NoDup [1; 2; 3; 4; 5].
Proof. repeat constructor; cbn; intuition discriminate. Qed.

Lemma get_lesson_round_trip_witness :
  get_lesson lessons_db 4 = inr lesson_4 <-> 4 = Lesson.id lesson_4.
Proof.
  apply (get_lesson_round_trip lessons_db lesson_4 4).
  - rewrite lessons_db_ids. exact NoDup_1_to_5.
  - right. right. right. left. reflexivity.
Defined.

(** X3: [submit_quiz] and [get_quiz] resolve a quiz identifier alike:
    [get_quiz] raises 404 exactly when no quiz carries the identifier, and
    then [submit_quiz] raises the same exception; otherwise [get_quiz]
    returns the first quiz carrying it and [submit_quiz] grades that very
    quiz. *)
Theorem get_quiz_submit_quiz_agree quizzes_db quiz_id submission :
  ((forall q, In q quizzes_db -> Quiz.id q <> quiz_id) <->
   get_quiz quizzes_db quiz_id
   = inl {| status_code := 404; detail := "Quiz not found" |})
  /\ (forall e,
        get_quiz quizzes_db quiz_id = inl e <->
        submit_quiz quizzes_db quiz_id submission = inl e)
  /\ (forall quiz,
        get_quiz quizzes_db quiz_id = inr quiz ->
        submit_quiz quizzes_db quiz_id submission = inr (grade quiz submission)
        /\ exists before after,
             quizzes_db = before ++ quiz :: after
             /\ Quiz.id quiz = quiz_id
             /\ forall x, In x before -> Quiz.id x <> quiz_id).
Proof.
  unfold get_quiz, submit_quiz.
  pose proof (find_quiz_absent quizzes_db quiz_id) as Habs.
  destruct (find_quiz quizzes_db quiz_id) as [quiz|] eqn:E.
  - split; [|split].
    + split; [|discriminate]. intros H. apply Habs in H. discriminate.
    + intros e. split; discriminate.
    + intros q [= <-]. split; [reflexivity|].
      unfold find_quiz in E. apply find_first in E.
      destruct E as (b & a & H1 & H2 & H3).
      exists b, a. repeat split; [assumption|now apply Z.eqb_eq|].
      intros x Hx. apply Z.eqb_neq. auto.
  - split; [|split].
    + split; [reflexivity|]. intros _. now apply Habs.
    + intros e. split; intros [= <-]; reflexivity.
    + discriminate.
Qed.

(** X4: in a store made of two parts, a quiz identifier resolves in the
    first part whenever a quiz there carries it and in the second part
    otherwise: a later quiz that repeats an identifier is never graded. *)
Theorem submit_quiz_store_app db1 db2 quiz_id submission :
  submit_quiz (db1 ++ db2) quiz_id submission
  = match find_quiz db1 quiz_id with
    | Some _ => submit_quiz db1 quiz_id submission
    | None => submit_quiz db2 quiz_id submission
    end.
Proof.
  unfold submit_quiz, find_quiz. rewrite find_app_first.
  now destruct (find _ db1).
Qed.

(** ** Filters over the tables *)

Lemma Difficulty_eqb_eq a b : Difficulty_eqb a b = true <-> a = b.
Proof. destruct a, b; cbn; intuition discriminate. Qed.

(** X5: the three difficulty lists split the table: together they are a
    rearrangement of the whole table, and a lesson is in the list of a
    difficulty exactly when it is in the table with that difficulty. *)
Theorem lessons_split_by_difficulty lessons_db :
  Permutation
    (get_lessons_by_difficulty lessons_db BEGINNER
     ++ get_lessons_by_difficulty lessons_db INTERMEDIATE
     ++ get_lessons_by_difficulty lessons_db ADVANCED)
    lessons_db
  /\ forall d l,
       In l (get_lessons_by_difficulty lessons_db d) <->
       In l lessons_db /\ Lesson.difficulty l = d.
Proof.
  unfold get_lessons_by_difficulty. split.
  - induction lessons_db as [|l rest IH]; cbn [filter]; [constructor|].
    destruct (Lesson.difficulty l); cbn [Difficulty_eqb app].
    + now constructor.
    + rewrite <- Permutation_middle. now constructor.
    + rewrite app_assoc, <- Permutation_middle, <- app_assoc.
      now constructor.
  - intros d l. now rewrite filter_In, Difficulty_eqb_eq.
Qed.

Lemma sum_question_counts_from quizzes_db :
  forall acc,
    fold_left (fun acc q => acc + Z.of_nat (List.length (Quiz.questions q)))
              quizzes_db acc
    = acc + sum_question_counts quizzes_db.
Proof.
  unfold sum_question_counts.
  induction quizzes_db as [|q rest IH]; intros acc; cbn [fold_left]; [lia|].
  rewrite IH, (IH (0 + _)). lia.
Qed.

Lemma sum_question_counts_app db1 db2 :
  sum_question_counts (db1 ++ db2)
  = sum_question_counts db1 + sum_question_counts db2.
Proof.
  unfold sum_question_counts at 1. rewrite fold_left_app.
  fold (sum_question_counts db1). apply sum_question_counts_from.
Qed.

(** X6: in the progress summary the three counts by difficulty add up to
    [total_lessons], and [total_quiz_questions] is the sum, over the quizzes
    of the table, of the [total] that grading any submission against the
    quiz reports; the summary of two tables put together adds up
    accordingly. *)
Theorem progress_summary_adds_up lessons_db quizzes_db :
  let s := get_progress_summary lessons_db quizzes_db in
  let by_d := ProgressSummary.lessons_by_difficulty s in
  ProgressSummary.total_lessons s
  = LessonsByDifficulty.beginner by_d + LessonsByDifficulty.intermediate by_d
    + LessonsByDifficulty.advanced by_d
  /\ (forall submission,
        ProgressSummary.total_quiz_questions s
        = fold_right Z.add 0
            (map (fun q => QuizResult.total (grade q submission)) quizzes_db))
  /\ (forall more,
        ProgressSummary.total_quiz_questions
          (get_progress_summary lessons_db (quizzes_db ++ more))
        = ProgressSummary.total_quiz_questions s
          + ProgressSummary.total_quiz_questions
              (get_progress_summary lessons_db more)).
Proof.
  cbv zeta. cbn [get_progress_summary ProgressSummary.total_lessons
    ProgressSummary.lessons_by_difficulty ProgressSummary.total_quiz_questions
    LessonsByDifficulty.beginner LessonsByDifficulty.intermediate
    LessonsByDifficulty.advanced].
  split; [|split].
  - unfold count_difficulty.
    induction lessons_db as [|l rest IH]; [reflexivity|].
    cbn [filter List.length].
    destruct (Lesson.difficulty l); cbn [Difficulty_eqb List.length]; lia.
  - intros submission.
    induction quizzes_db as [|q rest IH]; [reflexivity|].
    change (q :: rest) with ([q] ++ rest).
    rewrite sum_question_counts_app, IH. cbn [app map fold_right].
    rewrite grade_fields. cbn [QuizResult.total].
    unfold sum_question_counts. cbn [fold_left]. lia.
  - intros more. apply sum_question_counts_app.
Qed.

(** X7: [get_quizzes_for_lesson] never raises: for every table it returns
    the empty list exactly when no quiz refers to the lesson identifier,
    whether or not a lesson carries it, and every quiz it returns is a quiz
    of the table that refers to that lesson; when the quiz identifiers of the
    table are unique, each quiz it returns is what [get_quiz] returns for its
    identifier. *)
Theorem quizzes_for_lesson_resolve quizzes_db lesson_id :
  ((forall q, In q quizzes_db -> Quiz.lesson_id q <> lesson_id) <->
   get_quizzes_for_lesson quizzes_db lesson_id = [])
  /\ (forall q,
        In q (get_quizzes_for_lesson quizzes_db lesson_id) <->
        In q quizzes_db /\ Quiz.lesson_id q = lesson_id)
  /\ (NoDup (map Quiz.id quizzes_db) ->
      forall q,
        In q (get_quizzes_for_lesson quizzes_db lesson_id) ->
        get_quiz quizzes_db (Quiz.id q) = inr q).
Proof.
  unfold get_quizzes_for_lesson.
  assert (Hmem : forall q,
             In q (filter (fun q => Quiz.lesson_id q =? lesson_id) quizzes_db)
             <-> In q quizzes_db /\ Quiz.lesson_id q = lesson_id).
  { intros q. now rewrite filter_In, Z.eqb_eq. }
  split; [|split].
  - split.
    + intros H.
      destruct (filter (fun q => Quiz.lesson_id q =? lesson_id) quizzes_db)
        as [|q rest] eqn:E; [reflexivity|].
      exfalso. destruct (proj1 (Hmem q)) as [Hin Heq]; [now left|].
      now apply (H q).
    + intros H q Hin Heq.
      assert (Hq : In q (filter (fun q => Quiz.lesson_id q =? lesson_id)
                            quizzes_db)) by (apply Hmem; auto).
      rewrite H in Hq. contradiction.
  - exact Hmem.
  - intros Hnd q Hq. apply Hmem in Hq. destruct Hq as [Hin _].
    unfold get_quiz. now rewrite (find_quiz_unique _ _ Hnd Hin).
Qed.

Lemma quizzes_for_lesson_resolve_witness :
  get_quiz quizzes_db (Quiz.id quiz_2) = inr quiz_2.
Proof.
  apply (proj2 (proj2 (quizzes_for_lesson_resolve quizzes_db 2))).
  - repeat constructor; cbn; intuition discriminate.
  - change (In quiz_2 [quiz_2]). left. reflexivity.
Defined.

(** ** More on grading *)

Lemma grade_loop_feedback_Permutation quiz l l' :
  Permutation l l' ->
  Permutation (snd (grade_loop quiz l)) (snd (grade_loop quiz l')).
Proof.
  induction 1 as [|a l l' _ IH|a b l|l l' l'' _ IH1 _ IH2].
  - constructor.
  - rewrite !grade_loop_cons. cbn [snd]. now apply Permutation_app_head.
  - rewrite !grade_loop_cons. cbn [snd]. rewrite !app_assoc.
    apply Permutation_app_tail, Permutation_app_comm.
  - now transitivity (snd (grade_loop quiz l')).
Qed.

(** X11: the order of the submitted answers does not matter to the marks:
    two submissions holding the same answers in another order get the same
    exception, or results with the same score, total, percentage and
    verdict, whose feedback lists hold the same entries. *)
Theorem submit_quiz_order_irrelevant quizzes_db quiz_id answers answers' :
  Permutation answers answers' ->
  match submit_quiz quizzes_db quiz_id {| QuizSubmission.answers := answers |},
        submit_quiz quizzes_db quiz_id {| QuizSubmission.answers := answers' |}
  with
  | inl e, inl e' => e = e'
  | inr r, inr r' =>
      QuizResult.score r = QuizResult.score r'
      /\ QuizResult.total r = QuizResult.total r'
      /\ QuizResult.percentage r = QuizResult.percentage r'
      /\ QuizResult.passed r = QuizResult.passed r'
      /\ Permutation (QuizResult.feedback r) (QuizResult.feedback r')
  | _, _ => False
  end.
Proof.
  intros Hp. unfold submit_quiz.
  destruct (find_quiz quizzes_db quiz_id) as [quiz|]; [|reflexivity].
  rewrite !grade_fields.
  cbn [QuizResult.score QuizResult.total QuizResult.percentage
       QuizResult.passed QuizResult.feedback QuizSubmission.answers].
  assert (Hs : fst (grade_loop quiz answers) = fst (grade_loop quiz answers')).
  { rewrite !grade_loop_score. f_equal. now apply filter_length_Permutation. }
  rewrite Hs. repeat split. now apply grade_loop_feedback_Permutation.
Qed.

Lemma submit_quiz_order_irrelevant_witness :
  match submit_quiz quizzes_db 1
          {| QuizSubmission.answers := [QuizAnswer.mk 1 1; QuizAnswer.mk 2 0] |},
        submit_quiz quizzes_db 1
          {| QuizSubmission.answers := [QuizAnswer.mk 2 0; QuizAnswer.mk 1 1] |}
  with
  | inl e, inl e' => e = e'
  | inr r, inr r' =>
      QuizResult.score r = QuizResult.score r'
      /\ QuizResult.total r = QuizResult.total r'
      /\ QuizResult.percentage r = QuizResult.percentage r'
      /\ QuizResult.passed r = QuizResult.passed r'
      /\ Permutation (QuizResult.feedback r) (QuizResult.feedback r')
  | _, _ => False
  end.
Proof.
  apply (submit_quiz_order_irrelevant quizzes_db 1
           [QuizAnswer.mk 1 1; QuizAnswer.mk 2 0]
           [QuizAnswer.mk 2 0; QuizAnswer.mk 1 1]).
  apply perm_swap.
Defined.

Lemma grade_loop_same_lookup quiz quiz' answers :
  (forall k, find_question quiz k = find_question quiz' k) ->
  grade_loop quiz answers = grade_loop quiz' answers.
Proof.
  intros H. induction answers as [|a rest IH]; [reflexivity|].
  rewrite !grade_loop_cons, IH. unfold grade_answer. now rewrite H.
Qed.

(** X12: a question that repeats the identifier of an earlier question of
    the same quiz can never be answered: every submission gets the score and
    the feedback it gets without that question, while the question still
    counts in the total. *)
Theorem shadowed_question_unreachable quiz qs1 q qs2 submission :
  (exists q0, In q0 qs1 /\ QuizQuestion.id q0 = QuizQuestion.id q) ->
  let r := grade (with_questions quiz (qs1 ++ q :: qs2)) submission in
  let r' := grade (with_questions quiz (qs1 ++ qs2)) submission in
  QuizResult.score r = QuizResult.score r'
  /\ QuizResult.feedback r = QuizResult.feedback r'
  /\ QuizResult.total r = QuizResult.total r' + 1.
Proof.
  intros (q0 & Hin & Hid). cbv zeta. rewrite !grade_fields.
  cbn [QuizResult.score QuizResult.total QuizResult.feedback
       with_questions Quiz.questions].
  rewrite (grade_loop_same_lookup
             (with_questions quiz (qs1 ++ q :: qs2))
             (with_questions quiz (qs1 ++ qs2))).
  - repeat split. rewrite !length_app. cbn [List.length]. lia.
  - intros k. unfold find_question. cbn [with_questions Quiz.questions].
    rewrite !find_app_first.
    destruct (find (fun x => QuizQuestion.id x =? k) qs1) eqn:E;
      [reflexivity|].
    cbn [find].
    destruct (Z.eqb_spec (QuizQuestion.id q) k) as [Hk|_]; [|reflexivity].
    apply (find_none _ _ E) in Hin. apply Z.eqb_neq in Hin. congruence.
Qed.

Lemma shadowed_question_unreachable_witness :
  let quiz := bare_quiz 0 in
  let submission :=
    {| QuizSubmission.answers := [QuizAnswer.mk 1 0; QuizAnswer.mk 1 1] |} in
  let r := grade (with_questions quiz
                    ([bare_question 1]
                       ++ QuizQuestion.mk 1 "" ["yes"; "no"] 0 "" :: []))
                 submission in
  let r' := grade (with_questions quiz ([bare_question 1] ++ [])) submission in
  QuizResult.score r = QuizResult.score r'
  /\ QuizResult.feedback r = QuizResult.feedback r'
  /\ QuizResult.total r = QuizResult.total r' + 1.
Proof.
  apply (shadowed_question_unreachable (bare_quiz 0) [bare_question 1]
           (QuizQuestion.mk 1 "" ["yes"; "no"] 0 "") []).
  exists (bare_question 1). split; [now left | reflexivity].
Defined.

(** X13: the answers that reach no question of the quiz can all be dropped
    at once: a submission is graded to the very result of its answers that
    match a question, in the same order. *)
Theorem submit_quiz_matched_only quizzes_db quiz_id quiz answers :
  find_quiz quizzes_db quiz_id = Some quiz ->
  submit_quiz quizzes_db quiz_id {| QuizSubmission.answers := answers |}
  = submit_quiz quizzes_db quiz_id
      {| QuizSubmission.answers := filter (matched quiz) answers |}.
Proof.
  intros Hq. rewrite !(submit_quiz_found _ _ _ _ Hq), !grade_fields.
  cbn [QuizSubmission.answers].
  assert (H : grade_loop quiz answers
              = grade_loop quiz (filter (matched quiz) answers)).
  { induction answers as [|a rest IH]; [reflexivity|].
    cbn [filter]. unfold matched at 1.
    destruct (find_question quiz (QuizAnswer.question_id a)) as [q|] eqn:E.
    - rewrite !grade_loop_cons. now rewrite IH.
    - rewrite grade_loop_cons, (grade_answer_unmatched _ _ E), IH.
      cbn [fst snd]. rewrite Z.add_0_l.
      now destruct (grade_loop quiz (filter (matched quiz) rest)). }
  now rewrite H.
Qed.

Lemma submit_quiz_matched_only_witness :
  submit_quiz quizzes_db 2
    {| QuizSubmission.answers :=
         [QuizAnswer.mk 7 1; QuizAnswer.mk 1 1; QuizAnswer.mk 0 2] |}
  = submit_quiz quizzes_db 2
      {| QuizSubmission.answers :=
           filter (matched quiz_2)
                  [QuizAnswer.mk 7 1; QuizAnswer.mk 1 1; QuizAnswer.mk 0 2] |}.
Proof.
  exact (submit_quiz_matched_only quizzes_db 2 quiz_2
           [QuizAnswer.mk 7 1; QuizAnswer.mk 1 1; QuizAnswer.mk 0 2] eq_refl).
Defined.

(** ** More on the keyword search *)

Lemma str_in_empty (hay : string) : str_in "" hay = true.
Proof. now destruct hay. Qed.

Lemma filter_true {A} (l : list A) : filter (fun _ => true) l = l.
Proof. induction l as [|a l IH]; cbn; [reflexivity | now rewrite IH]. Qed.

Lemma occurs_in_trans (a b c : string) :
  occurs_in a b -> occurs_in b c -> occurs_in a c.
Proof.
  intros (p & q & ->) (p' & q' & ->).
  exists (p' ++ p)%string, (q ++ q')%string.
  now rewrite !append_assoc.
Qed.

Section SearchMore.

Variable lower : string -> string.

(** X8: a keyword that lower-cases to the empty string, as the empty keyword
    does, finds every lesson of the table, each with all its key concepts. *)
Theorem search_empty_keyword lessons_db keyword :
  lower keyword = ""%string ->
  search_lessons lower lessons_db keyword
  = map (fun l =>
           {| SearchResult.id := Lesson.id l;
              SearchResult.title := Lesson.title l;
              SearchResult.difficulty := Lesson.difficulty l;
              SearchResult.matching_concepts := Lesson.key_concepts l |})
        lessons_db.
Proof.
  intros H. unfold search_lessons. rewrite H.
  induction lessons_db as [|l rest IH]; [reflexivity|].
  cbn [search_scan map]. unfold lesson_matches.
  rewrite str_in_empty. cbn [orb]. rewrite IH. f_equal.
  unfold search_entry. f_equal.
  rewrite concepts_matching_filter.
  induction (Lesson.key_concepts l) as [|c cs IHc]; [reflexivity|].
  cbn [filter]. now rewrite str_in_empty, IHc.
Qed.

(** X9: a longer keyword only narrows the search: when the lower-cased first
    keyword occurs in the lower-cased second one, every entry found for the
    second keyword belongs to a lesson also found for the first, with no
    more matching concepts, and the second search finds no more lessons. *)
Theorem search_narrows lessons_db k1 k2 :
  occurs_in (lower k1) (lower k2) ->
  (forall r2,
      In r2 (search_lessons lower lessons_db k2) ->
      exists r1,
        In r1 (search_lessons lower lessons_db k1)
        /\ SearchResult.id r1 = SearchResult.id r2
        /\ SearchResult.title r1 = SearchResult.title r2
        /\ SearchResult.difficulty r1 = SearchResult.difficulty r2
        /\ incl (SearchResult.matching_concepts r2)
                (SearchResult.matching_concepts r1))
  /\ (List.length (search_lessons lower lessons_db k2)
      <= List.length (search_lessons lower lessons_db k1))%nat.
Proof.
  intros Hocc.
  assert (Hm : forall l, lesson_matches lower (lower k2) l = true ->
                         lesson_matches lower (lower k1) l = true).
  { intros l Hl. apply lesson_matches_occurs in Hl.
    apply lesson_matches_occurs.
    destruct Hl as [Hl|Hl]; [left|right]; now apply (occurs_in_trans _ _ _ Hocc). }
  unfold search_lessons. rewrite !search_scan_filter. split.
  - intros r2 Hr2. apply in_map_iff in Hr2. destruct Hr2 as (l & <- & Hl).
    apply filter_In in Hl. destruct Hl as [Hin Hl].
    exists (search_entry lower (lower k1) l). split.
    + apply in_map, filter_In. auto.
    + cbn [search_entry SearchResult.id SearchResult.title
           SearchResult.difficulty SearchResult.matching_concepts].
      repeat split. intros c Hc.
      rewrite concepts_matching_filter in *.
      apply filter_In in Hc. destruct Hc as [Hc Hs].
      apply filter_In. split; [assumption|].
      apply str_in_occurs. apply str_in_occurs in Hs.
      now apply (occurs_in_trans _ _ _ Hocc).
  - rewrite !length_map.
    induction lessons_db as [|l rest IH]; cbn [filter]; [lia|].
    destruct (lesson_matches lower (lower k2) l) eqn:E.
    + rewrite (Hm l E). cbn [List.length]. lia.
    + destruct (lesson_matches lower (lower k1) l); cbn [List.length]; lia.
Qed.

(** X10: with unique lesson identifiers, every entry of a search result
    opens with [get_lesson]: its identifier resolves to a lesson of the
    table with the entry's title and difficulty, whose key concepts hold the
    entry's matching concepts. *)
Theorem search_results_resolve lessons_db keyword r :
  NoDup (map Lesson.id lessons_db) ->
  In r (search_lessons lower lessons_db keyword) ->
  exists l,
    get_lesson lessons_db (SearchResult.id r) = inr l
    /\ Lesson.title l = SearchResult.title r
    /\ Lesson.difficulty l = SearchResult.difficulty r
    /\ incl (SearchResult.matching_concepts r) (Lesson.key_concepts l).
Proof.
  intros Hnd Hr. unfold search_lessons in Hr.
  rewrite search_scan_filter in Hr.
  apply in_map_iff in Hr. destruct Hr as (l & <- & Hl).
  apply filter_In in Hl. destruct Hl as [Hin _].
  exists l. cbn [search_entry SearchResult.id SearchResult.title
    SearchResult.difficulty SearchResult.matching_concepts].
  split; [now apply get_lesson_unique|].
  repeat split. intros c Hc. rewrite concepts_matching_filter in Hc.
  apply filter_In in Hc. tauto.
Qed.

End SearchMore.

Lemma search_empty_keyword_witness :
  search_lessons ascii_lower lessons_db ""
  = map (fun l =>
           {| SearchResult.id := Lesson.id l;
              SearchResult.title := Lesson.title l;
              SearchResult.difficulty := Lesson.difficulty l;
              SearchResult.matching_concepts := Lesson.key_concepts l |})
        lessons_db.
Proof.
  exact (search_empty_keyword ascii_lower lessons_db "" eq_refl).
Defined.

Lemma search_narrows_witness :
  (forall r2,
      In r2 (search_lessons ascii_lower lessons_db "Classes") ->
      exists r1,
        In r1 (search_lessons ascii_lower lessons_db "class")
        /\ SearchResult.id r1 = SearchResult.id r2
        /\ SearchResult.title r1 = SearchResult.title r2
        /\ SearchResult.difficulty r1 = SearchResult.difficulty r2
        /\ incl (SearchResult.matching_concepts r2)
                (SearchResult.matching_concepts r1))
  /\ (List.length (search_lessons ascii_lower lessons_db "Classes")
      <= List.length (search_lessons ascii_lower lessons_db "class"))%nat.
Proof.
  apply (search_narrows ascii_lower lessons_db "class" "Classes").
  exists ""%string, "es"%string. reflexivity.
Defined.

Lemma search_results_resolve_witness :
  exists l,
    get_lesson lessons_db 4 = inr l
    /\ Lesson.title l = "Polymorphism"%string
    /\ Lesson.difficulty l = ADVANCED
    /\ incl ["Polymorphism"%string] (Lesson.key_concepts l).
Proof.
  apply (search_results_resolve ascii_lower lessons_db "polymorphism"
           {| SearchResult.id := 4;
              SearchResult.title := "Polymorphism";
              SearchResult.difficulty := ADVANCED;
              SearchResult.matching_concepts := ["Polymorphism"%string] |}).
  - rewrite lessons_db_ids. exact NoDup_1_to_5.
  - vm_compute. right. left. reflexivity.
Defined.
